(** * LazyCommits: the commit-and-push automation loop

    A shallow embedding of [src/gitLogic.js] and [src/index.js].

    The program talks to three external collaborators: the version-control
    binding ([simple-git]), the interactive prompt ([inquirer]) and the
    progress reporting ([ora], [console]).  Each [async] function of the
    source is embedded as a finite tree of interactions ([Prog]): a node is
    one awaited external call, whose promise either resolves with a value or
    rejects with an error message.  The one place where calls are in flight
    side by side, the interval of [waitForThreshold], whose callbacks are
    not awaited, is embedded with its calls in flight, the environment
    saying which pending event comes next.  A tree is run against a [World],
    a deterministic environment that answers every call from the history of
    what happened so far; the run yields the trace of events and the way the
    function's own promise settles.  Theorems quantify over all worlds. *)

From Stdlib Require Import String Ascii List ZArith Lia Bool Arith DecimalString.
Import ListNotations.
Open Scope string_scope.
Open Scope list_scope.

(* ================================================================== *)
(** ** Strings as the source uses them *)
(* ================================================================== *)

(** [s.includes(sub)]: case-sensitive substring test. *)
Fixpoint includes (s sub : string) : bool :=
  if String.prefix sub s then true
  else match s with
       | EmptyString => false
       | String _ s' => includes s' sub
       end.

(** A string in a boolean position: only the empty string is falsy. *)
Definition truthy (s : string) : bool := negb (s =? "").

(** Template-literal rendering of numbers. *)
Definition string_of_nat (n : nat) : string :=
  NilEmpty.string_of_uint (Nat.to_uint n).
Definition string_of_Z (z : Z) : string :=
  NilZero.string_of_int (Z.to_int z).

(** Characters that the source writes with escapes. *)
Definition dquote : string := String (ascii_of_nat 34) EmptyString.
Definition newline : string := String (ascii_of_nat 10) EmptyString.

(* ================================================================== *)
(** ** Data model *)
(* ================================================================== *)

(** An entry of [status.files]. *)
Record ChangedFile := { path : string; working_dir : string }.

(** An entry of the result of [git.getRemotes()]. *)
Record Remote := { name : string }.

(** The result of [git.branchLocal()]. *)
Record BranchSummary := { all : list string; current : string }.

(** What [checkGitStatus] hands back: the file list, or [null]. *)
Definition Files : Type := option (list ChangedFile).

(** The options object of [git.pull]: option name and value ([null] is
    [None]). *)
Definition PullOptions : Type := list (string * option string).
Definition allow_unrelated_histories : PullOptions :=
  [("--allow-unrelated-histories", None)].
Definition rebase_true : PullOptions := [("--rebase", Some "true")].

(** How an awaited promise settles: resolved with a value, or rejected with
    an error whose [message] is kept. *)
Inductive Outcome (A : Type) : Type :=
| Resolved (a : A)
| Rejected (message : string).
Arguments Resolved {A} a.
Arguments Rejected {A} message.

(** The awaited external calls. *)
Inductive Cmd : Type :=
| git_checkIsRepo
| git_status
| git_add (file : string)
| git_commit (message : string)
| git_push                                    (* git.push() *)
| git_push_to (remote branch : string) (options : list string)
| git_pull (remote branch : string) (options : PullOptions)
| git_getRemotes
| git_addRemote (remoteName remoteUrl : string)
| git_revparse (args : list string)
| git_branchLocal
| git_checkout (branchName : string)
| prompt_input (field message : string)
| prompt_list (field message : string) (choices : list string) (default : string).

(** What each call resolves with. [git_status] resolves with the [files]
    field of the status summary, the only part the program reads; a prompt
    resolves with the one answer it asks for. *)
Definition Resp (c : Cmd) : Type :=
  match c with
  | git_checkIsRepo => bool
  | git_status => list ChangedFile
  | git_getRemotes => list Remote
  | git_revparse _ => string
  | git_branchLocal => BranchSummary
  | prompt_input _ _ => string
  | prompt_list _ _ _ _ => string
  | _ => unit
  end.

(** Reports to the operator. They return nothing and do not fail.  The two
    spinners of [pushChanges] are not told apart. *)
Inductive Output : Type :=
| console_log (text : string)
| console_error (text : string)
| ora_start (text : string)
| spinner_text (text : string)
| spinner_succeed (text : string)
| spinner_fail (text : string).

(** One observable step of a run. *)
Inductive Event : Type :=
| Called (c : Cmd) (r : Outcome (Resp c))
| Said (o : Output)
| Waited (ms : Z)              (* a timer of [ms] milliseconds fired *)
| Clock (iso : string).        (* [new Date().toISOString()] was read *)

(* ================================================================== *)
(** ** Programs: trees of interactions *)
(* ================================================================== *)

(** [Call] is an awaited call: it is issued, it settles, and only then does
    the program go on. The last three nodes are the steps of the event loop
    where calls are in flight side by side (the callbacks of an interval):
    [Issue c k] issues [c], whose outcome is decided there and handed to the
    pending callback; [Settle e k] is the moment a call in flight settles,
    [e] being the [Called] event seen then; [Next k] lets the environment say
    which of the pending events, a call in flight or the timer, comes
    first. *)
Inductive Prog (A : Type) : Type :=
| Ret (a : A)
| Throw (message : string)
| Call (c : Cmd) (k : Outcome (Resp c) -> Prog A)
| Say (o : Output) (k : Prog A)
| Timer (ms : Z) (k : Prog A)
| Now (k : string -> Prog A)
| Next (k : nat -> Prog A)
| Issue (c : Cmd) (k : Outcome (Resp c) -> Prog A)
| Settle (e : Event) (k : Prog A).
Arguments Ret {A} a.
Arguments Throw {A} message.
Arguments Call {A} c k.
Arguments Say {A} o k.
Arguments Timer {A} ms k.
Arguments Now {A} k.
Arguments Next {A} k.
Arguments Issue {A} c k.
Arguments Settle {A} e k.

Fixpoint bind {A B : Type} (p : Prog A) (f : A -> Prog B) : Prog B :=
  match p with
  | Ret a => f a
  | Throw e => Throw e
  | Call c k => Call c (fun r => bind (k r) f)
  | Say o k => Say o (bind k f)
  | Timer ms k => Timer ms (bind k f)
  | Now k => Now (fun t => bind (k t) f)
  | Next k => Next (fun i => bind (k i) f)
  | Issue c k => Issue c (fun r => bind (k r) f)
  | Settle e k => Settle e (bind k f)
  end.

(** [try { p } catch (error) { h error.message }] *)
Fixpoint try_catch {A : Type} (p : Prog A) (h : string -> Prog A) : Prog A :=
  match p with
  | Ret a => Ret a
  | Throw e => h e
  | Call c k => Call c (fun r => try_catch (k r) h)
  | Say o k => Say o (try_catch k h)
  | Timer ms k => Timer ms (try_catch k h)
  | Now k => Now (fun t => try_catch (k t) h)
  | Next k => Next (fun i => try_catch (k i) h)
  | Issue c k => Issue c (fun r => try_catch (k r) h)
  | Settle e k => Settle e (try_catch k h)
  end.

(** [await c]: a rejection is thrown at the point of the call. *)
Definition call (c : Cmd) : Prog (Resp c) :=
  Call c (fun r => match r with
                   | Resolved a => Ret a
                   | Rejected e => Throw e
                   end).
Definition say (o : Output) : Prog unit := Say o (Ret tt).
Definition timer (ms : Z) : Prog unit := Timer ms (Ret tt).
Definition now : Prog string := Now Ret.

Declare Scope prog_scope.
Delimit Scope prog_scope with prog.
Bind Scope prog_scope with Prog.
Notation "x <- p ;; q" := (bind p (fun x => q))
  (at level 61, p at next level, right associativity) : prog_scope.
Notation "p ;; q" := (bind p (fun _ => q))
  (at level 61, right associativity) : prog_scope.
Notation "'try' p 'catch' x => h" := (try_catch p (fun x => h))
  (at level 60, p at level 200, x name, h at level 200) : prog_scope.
Open Scope prog_scope.

(** [for (const x of xs) { body x }] *)
Fixpoint for_of {A : Type} (xs : list A) (body : A -> Prog unit) : Prog unit :=
  match xs with
  | [] => Ret tt
  | x :: xs' => body x ;; for_of xs' body
  end.

(* ================================================================== *)
(** ** Running a program in a world *)
(* ================================================================== *)

(** The environment: how each call settles and what the clock shows, given
    everything that has happened before; and, where several events are
    pending, which comes first: [next] is the position of a call in flight,
    oldest first, and any position past the last of them is the timer. *)
Record World := {
  answer : list Event -> forall c : Cmd, Outcome (Resp c);
  clock : list Event -> string;
  next : list Event -> nat
}.

(** [run w h p]: the events [p] produces when started after history [h], and
    how its promise settles. *)
Fixpoint run {A : Type} (w : World) (h : list Event) (p : Prog A)
  : list Event * Outcome A :=
  match p with
  | Ret a => ([], Resolved a)
  | Throw e => ([], Rejected e)
  | Call c k =>
      let r := answer w h c in
      let '(t, o) := run w (h ++ [Called c r]) (k r) in
      (Called c r :: t, o)
  | Say o k =>
      let '(t, res) := run w (h ++ [Said o]) k in (Said o :: t, res)
  | Timer ms k =>
      let '(t, res) := run w (h ++ [Waited ms]) k in (Waited ms :: t, res)
  | Now k =>
      let iso := clock w h in
      let '(t, res) := run w (h ++ [Clock iso]) (k iso) in (Clock iso :: t, res)
  | Next k => run w h (k (next w h))
  | Issue c k => run w h (k (answer w h c))
  | Settle e k =>
      let '(t, res) := run w (h ++ [e]) k in (e :: t, res)
  end.

(* ================================================================== *)
(** ** [src/gitLogic.js] *)
(* ================================================================== *)

Definition abbrev_ref_HEAD : Cmd := git_revparse ["--abbrev-ref"; "HEAD"].

(** [checkGitStatus] (lines 8-22). *)
Definition checkGitStatus : Prog Files :=
  try (isRepo <- call git_checkIsRepo ;;
       if negb isRepo then
         say (console_error "Current directory is not a git repository.") ;;
         Ret None
       else
         files <- call git_status ;;
         Ret (Some files))
  catch error =>
    (say (console_error ("Error checking git status: " ++ error)) ;;
     Ret None).

(** [files.slice(0, end)] for an integer [end]: a negative [end] counts from
    the end of the array. *)
Definition slice0 {A : Type} (xs : list A) (e : Z) : list A :=
  if (e <? 0)%Z
  then firstn (Z.to_nat (Z.max (Z.of_nat (length xs) + e) 0)) xs
  else firstn (Z.to_nat e) xs.

(** The commit message of line 41. *)
Definition commitMessage (file iso : string) : string :=
  "Update " ++ file ++ ": Automated sync " ++ iso.

(** The body of the loop of [processFiles] (lines 38-46). *)
Definition processFile (file : ChangedFile) : Prog unit :=
  say (ora_start ("Processing " ++ path file ++ "...")) ;;
  try (call (git_add (path file)) ;;
       iso <- now ;;
       call (git_commit (commitMessage (path file) iso)) ;;
       say (spinner_succeed ("Committed: " ++ path file)))
  catch error =>
    say (spinner_fail ("Failed to commit " ++ path file ++ ": " ++ error)).

(** [limit ? files.slice(0, limit) : files] (line 34); the integer 0 is the
    falsy limit. *)
Definition filesToProcess (files : list ChangedFile) (limit : Z)
  : list ChangedFile :=
  if (limit =? 0)%Z then files else slice0 files limit.

(** [processFiles(files, limit)] (lines 28-48); [files] may be [null]. *)
Definition processFiles (files : Files) (limit : Z) : Prog unit :=
  match files with
  | None | Some [] => say (console_log "No files to process.")
  | Some fs =>
      say (console_log ("Processing "
                        ++ string_of_nat (length (filesToProcess fs limit))
                        ++ " files...")) ;;
      for_of (filesToProcess fs limit) processFile
  end.

(** The default of the [limit] parameter. *)
Definition default_limit : Z := 5.

(** Lines 57 and 141: the two tests on the message of the failed push. *)
Definition isNoUpstream (message : string) : bool :=
  includes message "No configured push destination"
  || includes message "no upstream branch".

Definition isRemoteAhead (message : string) : bool :=
  includes message "fetch first"
  || includes message "rejected"
  || includes message "divergent branches".

(** Line 113: the test on the message of the failed upstream-setting push. *)
Definition isDiverged (message : string) : bool :=
  includes message "fetch first"
  || includes message "rejected"
  || includes message "divergent branches"
  || includes message "non-fast-forward".

Definition push_u (branch : string) : Cmd := git_push_to "origin" branch ["-u"].

(** Lines 68-78: origin exists, try to set the upstream.  The result says
    whether the function returned from inside the [try] (line 73). The
    assignment [error = linkErr] of line 76 is to a variable that is not read
    again. *)
Definition linkUpstream : Prog bool :=
  say (spinner_text ("Remote " ++ dquote ++ "origin" ++ dquote
                     ++ " found. Attempting to link upstream...")) ;;
  try (branch <- call abbrev_ref_HEAD ;;
       call (push_u branch) ;;
       say (spinner_succeed "Upstream linked and changes pushed!") ;;
       Ret true)
  catch linkErr =>
    (say (spinner_fail ("Failed to link upstream: " ++ linkErr)) ;;
     Ret false).

(** Lines 81-99: no origin, ask for a URL. The result is whether the function
    returned (line 98) and the value of [remoteUrl]. *)
Definition remoteUrl_message : string :=
  "Enter the GitHub/Remote URL to connect to (or leave empty to skip):".

Definition promptForRemote : Prog (bool * string) :=
  say (console_log (newline ++ "It looks like this repository is not connected to a remote server.")) ;;
  remoteUrl <- call (prompt_input "remoteUrl" remoteUrl_message) ;;
  if truthy remoteUrl then
    (try call (git_addRemote "origin" remoteUrl)
     catch e =>
       say (console_log ("Remote " ++ dquote ++ "origin" ++ dquote
                         ++ " might already exist, proceeding..."))) ;;
    Ret (false, remoteUrl)
  else Ret (true, remoteUrl).

(** Lines 114-134: the handler of a diverged upstream-setting push. [branch]
    is the variable of line 105: [None] while unassigned. The read of line 117
    is outside every [try]. *)
Definition reconcile (branch : option string) : Prog unit :=
  say (spinner_text "Remote contains changes. Reconciling...") ;;
  branch <- match branch with
            | Some b => if truthy b then Ret b else call abbrev_ref_HEAD
            | None => call abbrev_ref_HEAD
            end ;;
  try (call (git_pull "origin" branch allow_unrelated_histories) ;;
       call (push_u branch) ;;
       say (spinner_succeed "Reconciled and pushed!"))
  catch pullErr =>
    try (say (spinner_text "Trying rebase...") ;;
         call (git_pull "origin" branch rebase_true) ;;
         call (push_u branch) ;;
         say (spinner_succeed "Rebased and pushed!"))
    catch finalErr =>
      say (spinner_fail ("Critical failure syncing with remote: " ++ finalErr)).

(** Lines 111-138: the [catch (pushErr)] of the sync [try]. *)
Definition syncFailed (branch : option string) (pushErr : string) : Prog unit :=
  if isDiverged pushErr then reconcile branch
  else say (spinner_fail ("Failed to push: " ++ pushErr)).

(** Lines 104-138. The [try] body assigns [branch] and then pushes; the
    handler sees [branch] assigned exactly when the read resolved, so the
    body is split at the assignment. *)
Definition syncWithRemote : Prog unit :=
  say (ora_start "Syncing with remote...") ;;
  read <- (try (b <- call abbrev_ref_HEAD ;; Ret (Resolved b))
           catch pushErr => Ret (Rejected pushErr)) ;;
  match read with
  | Rejected pushErr => syncFailed None pushErr
  | Resolved branch =>
      try (call (push_u branch) ;;
           say (spinner_succeed "Remote configured and changes pushed!"))
      catch pushErr => syncFailed (Some branch) pushErr
  end.

(** An object in a boolean position: [undefined] is falsy. *)
Definition found {A : Type} (x : option A) : bool :=
  match x with Some _ => true | None => false end.

(** Line 62: [remotes.find(r => r.name === 'origin')]. *)
Definition findOrigin (remotes : list Remote) : option Remote :=
  find (fun r => name r =? "origin") remotes.

(** Lines 64-139: what follows the look-up of origin among the remotes. The
    prompt is awaited outside every [try]. Where origin exists [remoteUrl]
    stays [undefined], falsy like the empty string that stands for it. *)
Definition afterRemotes (hasOrigin : option Remote) : Prog unit :=
  st <- match hasOrigin with
        | Some _ => returned <- linkUpstream ;; Ret (returned, "")
        | None => promptForRemote
        end ;;
  let '(returned, remoteUrl) := st in
  if returned then Ret tt
  else if found hasOrigin || truthy remoteUrl
       then syncWithRemote
       else Ret tt.

(** Lines 58-62: the push failed for want of an upstream. [getRemotes] is
    awaited outside every [try]. *)
Definition noUpstream : Prog unit :=
  say (spinner_fail "No remote/upstream configured.") ;;
  remotes <- call git_getRemotes ;;
  afterRemotes (findOrigin remotes).

(** Lines 143-151: the remote is ahead during normal operation. *)
Definition remoteAhead : Prog unit :=
  say (spinner_text "Remote is ahead. Pulling changes...") ;;
  try (branch <- call abbrev_ref_HEAD ;;
       call (git_pull "origin" branch rebase_true) ;;
       call git_push ;;
       say (spinner_succeed "Pulled remote changes and pushed."))
  catch pullError =>
    say (spinner_fail "Failed to auto-sync. Please pull manually to resolve conflicts.").

(** Lines 55-155: the [catch (error)] of the first push. *)
Definition pushFailed (error : string) : Prog unit :=
  if isNoUpstream error then noUpstream
  else if isRemoteAhead error then remoteAhead
  else say (spinner_fail ("Failed to push changes: " ++ error)).

(** [pushChanges] (lines 50-156). *)
Definition pushChanges : Prog unit :=
  say (ora_start "Pushing changes...") ;;
  try (call git_push ;;
       say (spinner_succeed "Changes pushed to remote."))
  catch error => pushFailed error.

(** One firing of the interval callback of [waitForThreshold] (lines
    165-176): [Some files] when it resolves the promise with [files]. *)
Definition count (files : Files) : nat :=
  match files with Some fs => length fs | None => 0 end.

Definition poll (threshold : Z) : Prog (option Files) :=
  files <- checkGitStatus ;;
  say (spinner_text ("Waiting for " ++ string_of_Z threshold
                     ++ " unstaged files... (Current: "
                     ++ string_of_nat (count files) ++ ")")) ;;
  if (Z.of_nat (count files) >=? threshold)%Z then
    say (spinner_succeed ("Threshold reached! Found "
                          ++ string_of_nat (count files) ++ " files.")) ;;
    Ret (Some files)
  else Ret None.

(** A callback of the interval that waits for a call to settle: the event
    seen when it does, and what the callback does from there. *)
Definition InFlight (B : Type) : Type := (Event * Prog (option B))%type.

Definition remove_nth {A : Type} (i : nat) (l : list A) : list A :=
  firstn i l ++ skipn (S i) l.

(** [sync loop others p]: the callback [p] runs until it awaits a call, which
    is issued and joins the calls in flight, or until it ends: with
    [Some b] it has cleared the interval and resolved the promise with [b],
    with [None] the interval goes on. A rejection that leaves the callback is
    unhandled and ends the run. The callback of the source is made of awaited
    calls and reports; the other nodes are passed through. *)
Fixpoint sync {B : Type} (loop : list (InFlight B) -> Prog (option B))
  (others : list (InFlight B)) (p : Prog (option B)) : Prog (option B) :=
  match p with
  | Ret (Some b) => Ret (Some b)
  | Ret None => loop others
  | Throw e => Throw e
  | Call c k => Issue c (fun r => loop (others ++ [(Called c r, k r)]))
  | Say o p' => Say o (sync loop others p')
  | Now k => Now (fun iso => sync loop others (k iso))
  | Timer ms p' => Timer ms (sync loop others p')
  | Next k => Next (fun i => sync loop others (k i))
  | Issue c k => Issue c (fun r => sync loop others (k r))
  | Settle e p' => Settle e (sync loop others p')
  end.

(** [new Promise(resolve => setInterval(async () => callback, ms))] (lines
    164-177). The interval fires every [ms] milliseconds until a callback
    clears it, and it does not wait for the callback it started: each firing
    starts a callback whatever is still in flight, and the calls in flight
    settle in the order the environment gives. The source has no bound on the
    number of firings; [steps] bounds the events (firings and settlements)
    that the model follows, and [None] is the promise still pending after
    them. The run is followed until the promise resolves: the callbacks still
    in flight then go on beside the caller, which does not wait for them. *)
Fixpoint intervalLoop {B : Type} (steps : nat) (ms : Z)
  (callback : Prog (option B)) (inflight : list (InFlight B))
  : Prog (option B) :=
  match steps with
  | O => Ret None
  | S n =>
      Next (fun i =>
        match nth_error inflight i with
        | Some (settled, rest) =>
            Settle settled
              (sync (intervalLoop n ms callback) (remove_nth i inflight) rest)
        | None =>
            Timer ms (sync (intervalLoop n ms callback) inflight callback)
        end)
  end.

(** [waitForThreshold(threshold)] (lines 161-178); [ticks] bounds the events
    of the interval that are followed. *)
Definition waitForThreshold (ticks : nat) (threshold : Z)
  : Prog (option Files) :=
  say (ora_start ("Waiting for " ++ string_of_Z threshold
                  ++ " unstaged files...")) ;;
  intervalLoop ticks 5000 (poll threshold) [].

Definition default_threshold : Z := 5.

(** [getBranches] (lines 180-188). *)
Definition getBranches : Prog (option BranchSummary) :=
  try (branchSummary <- call git_branchLocal ;; Ret (Some branchSummary))
  catch error =>
    (say (console_error ("Error getting branches: " ++ error)) ;;
     Ret None).

(** [checkoutBranch] (lines 190-199). *)
Definition checkoutBranch (branchName : string) : Prog unit :=
  say (ora_start ("Switching to branch " ++ branchName ++ "...")) ;;
  try (call (git_checkout branchName) ;;
       say (spinner_succeed ("Switched to branch " ++ branchName)))
  catch error =>
    (say (spinner_fail ("Failed to switch branch: " ++ error)) ;;
     say (console_log "Continuing on current branch...")).

(* ================================================================== *)
(** ** [src/index.js] *)
(* ================================================================== *)

(** Lines 19-36: branch selection at startup. *)
Definition selectBranch : Prog unit :=
  branches <- getBranches ;;
  match branches with
  | Some bs =>
      answers <- call (prompt_list "branch" "Select the branch to work on:"
                                  (all bs) (current bs)) ;;
      if negb (answers =? current bs) then checkoutBranch answers
      else say (console_log ("Staying on current branch: " ++ current bs))
  | None => Ret tt
  end.

(** Lines 49-51 and 59-61. *)
Definition commitAndPush (files : Files) : Prog unit :=
  processFiles files 5 ;;
  pushChanges ;;
  say (console_log (newline ++ "Waiting for next batch...")).

(** One turn of the [while (true)] of lines 38-63; [None] when the turn is
    still waiting for the threshold after [ticks] events of the interval. *)
Definition cycle (ticks : nat) : Prog (option unit) :=
  files <- checkGitStatus ;;
  match files with
  | None =>
      say (console_error "Error reading git status. Retrying in 5s...") ;;
      timer 5000 ;;
      Ret (Some tt)                                        (* continue *)
  | Some fs =>
      if (5 <=? length fs)%nat then
        commitAndPush files ;; Ret (Some tt)
      else
        say (console_log (newline ++ "Only " ++ string_of_nat (length fs)
                          ++ " changed files found (Threshold: 5).")) ;;
        waited <- waitForThreshold ticks 5 ;;
        match waited with
        | Some files' => commitAndPush files' ;; Ret (Some tt)
        | None => Ret None
        end
  end.

(** The loop, followed for at most [turns] turns. *)
Fixpoint mainLoop (turns ticks : nat) : Prog unit :=
  match turns with
  | O => Ret tt
  | S n =>
      r <- cycle ticks ;;
      match r with
      | Some _ => mainLoop n ticks
      | None => Ret tt
      end
  end.

(** [main] (lines 7-64). The parse of the command line by [commander] is not
    modelled: the program takes no arguments. *)
Definition main (turns ticks : nat) : Prog unit :=
  say (console_log "Running Deep (Auto Git Pusher) in Continuous Mode...") ;;
  say (console_log "Press Ctrl+C to stop.") ;;
  selectBranch ;;
  mainLoop turns ticks.

(* ================================================================== *)
(** ** Observations on runs and traces *)
(* ================================================================== *)

Definition trace_of {A : Type} (w : World) (h : list Event) (p : Prog A)
  : list Event := fst (run w h p).
Definition settles {A : Type} (w : World) (h : list Event) (p : Prog A)
  : Outcome A := snd (run w h p).

(** The external calls of a trace, in order. *)
Fixpoint cmds (t : list Event) : list Cmd :=
  match t with
  | [] => []
  | Called c _ :: t' => c :: cmds t'
  | _ :: t' => cmds t'
  end.

Definition is_prompt (c : Cmd) : bool :=
  match c with
  | prompt_input _ _ | prompt_list _ _ _ _ => true
  | _ => false
  end.

Definition is_addRemote (c : Cmd) : bool :=
  match c with git_addRemote _ _ => true | _ => false end.

Definition is_push_u (c : Cmd) : bool :=
  match c with
  | git_push_to _ _ options => existsb (String.eqb "-u") options
  | _ => false
  end.

Definition is_commit (c : Cmd) : bool :=
  match c with git_commit _ => true | _ => false end.

(** The two status queries, which change nothing. *)
Definition is_query (c : Cmd) : bool :=
  match c with
  | git_checkIsRepo | git_status => true
  | _ => false
  end.

Definition count_calls (f : Cmd -> bool) (t : list Event) : nat :=
  length (filter f (cmds t)).

(** A program that can only issue calls satisfying [P], whatever the answers. *)
Fixpoint issues_only {A : Type} (P : Cmd -> Prop) (p : Prog A) : Prop :=
  match p with
  | Ret _ | Throw _ => True
  | Call c k => P c /\ forall r, issues_only P (k r)
  | Say _ k | Timer _ k => issues_only P k
  | Now k => forall iso, issues_only P (k iso)
  | Next k => forall i, issues_only P (k i)
  | Issue c k => P c /\ forall r, issues_only P (k r)
  | Settle e k =>
      match e with Called c _ => P c | _ => True end /\ issues_only P k
  end.

(** The stage calls of a trace: the path and whether the call resolved. *)
Fixpoint stage_results (t : list Event) : list (string * bool) :=
  match t with
  | [] => []
  | Called (git_add p) (Resolved _) :: t' => (p, true) :: stage_results t'
  | Called (git_add p) (Rejected _) :: t' => (p, false) :: stage_results t'
  | _ :: t' => stage_results t'
  end.

Definition stages (t : list Event) : list string :=
  map fst (stage_results t).
Definition resolved_stages (t : list Event) : list string :=
  map fst (filter snd (stage_results t)).

(** The commit attempts of a trace that come right after the resolved stage
    call on the file they name (only the reading of the date in between):
    the paths of those files. *)
Fixpoint commits_of (t : list Event) : list string :=
  match t with
  | [] => []
  | e :: t' =>
      match e, t' with
      | Called (git_add p) (Resolved _),
        Clock iso :: Called (git_commit m) _ :: _ =>
          if m =? commitMessage p iso then p :: commits_of t' else commits_of t'
      | _, _ => commits_of t'
      end
  end.

(** The shape of one file's attempt, and of a batch of them. *)
Inductive file_attempt (f : ChangedFile) : list Event -> Prop :=
| stage_failed e :
    file_attempt f
      [Said (ora_start ("Processing " ++ path f ++ "..."));
       Called (git_add (path f)) (Rejected e);
       Said (spinner_fail ("Failed to commit " ++ path f ++ ": " ++ e))]
| commit_failed iso e :
    file_attempt f
      [Said (ora_start ("Processing " ++ path f ++ "..."));
       Called (git_add (path f)) (Resolved tt);
       Clock iso;
       Called (git_commit (commitMessage (path f) iso)) (Rejected e);
       Said (spinner_fail ("Failed to commit " ++ path f ++ ": " ++ e))]
| committed iso :
    file_attempt f
      [Said (ora_start ("Processing " ++ path f ++ "..."));
       Called (git_add (path f)) (Resolved tt);
       Clock iso;
       Called (git_commit (commitMessage (path f) iso)) (Resolved tt);
       Said (spinner_succeed ("Committed: " ++ path f))].

Inductive batch : list ChangedFile -> list Event -> Prop :=
| batch_nil : batch [] []
| batch_cons f fs t ts :
    file_attempt f t -> batch fs ts -> batch (f :: fs) (t ++ ts).

(** The status reads of a trace with the time at which each was made, time
    being what the timers before it add up to, from [t0]: a read is [None]
    when the directory is no repository or a query rejected. *)
Fixpoint timeline (t0 : Z) (t : list Event) : list (Z * Files) :=
  match t with
  | [] => []
  | Waited ms :: t' => timeline (t0 + ms) t'
  | Called git_checkIsRepo (Resolved false) :: t' => (t0, None) :: timeline t0 t'
  | Called git_checkIsRepo (Rejected _) :: t' => (t0, None) :: timeline t0 t'
  | Called git_status (Resolved fs) :: t' => (t0, Some fs) :: timeline t0 t'
  | Called git_status (Rejected _) :: t' => (t0, None) :: timeline t0 t'
  | _ :: t' => timeline t0 t'
  end.

(** The times [5000 * (k+1)] for [k < n], from [t0]. *)
Fixpoint every_5s (t0 : Z) (n : nat) : list Z :=
  match n with
  | O => []
  | S n' => (t0 + 5000)%Z :: every_5s (t0 + 5000) n'
  end.

Definition below (threshold : Z) (files : Files) : Prop :=
  (Z.of_nat (count files) < threshold)%Z.


(** The shapes a run of the remote-ahead recovery can take (lines 143-151). *)
Definition auto_sync_failed : Event :=
  Said (spinner_fail "Failed to auto-sync. Please pull manually to resolve conflicts.").

Inductive remoteAhead_shape : list Event -> Prop :=
| ahead_no_branch e :
    remoteAhead_shape
      [Said (spinner_text "Remote is ahead. Pulling changes...");
       Called abbrev_ref_HEAD (Rejected e);
       auto_sync_failed]
| ahead_pull_failed b e :
    remoteAhead_shape
      [Said (spinner_text "Remote is ahead. Pulling changes...");
       Called abbrev_ref_HEAD (Resolved b);
       Called (git_pull "origin" b rebase_true) (Rejected e);
       auto_sync_failed]
| ahead_push_failed b e :
    remoteAhead_shape
      [Said (spinner_text "Remote is ahead. Pulling changes...");
       Called abbrev_ref_HEAD (Resolved b);
       Called (git_pull "origin" b rebase_true) (Resolved tt);
       Called git_push (Rejected e);
       auto_sync_failed]
| ahead_pushed b :
    remoteAhead_shape
      [Said (spinner_text "Remote is ahead. Pulling changes...");
       Called abbrev_ref_HEAD (Resolved b);
       Called (git_pull "origin" b rebase_true) (Resolved tt);
       Called git_push (Resolved tt);
       Said (spinner_succeed "Pulled remote changes and pushed.")].

(** A pull from origin with [options] followed by the upstream-setting push:
    both resolve, or one of them rejects with [e]. *)
Definition pull_push_ok (b : string) (options : PullOptions) : list Event :=
  [Called (git_pull "origin" b options) (Resolved tt);
   Called (push_u b) (Resolved tt)].

Inductive pull_push_failed (b : string) (options : PullOptions)
  : string -> list Event -> Prop :=
| pull_rejected e :
    pull_push_failed b options e
      [Called (git_pull "origin" b options) (Rejected e)]
| push_rejected e :
    pull_push_failed b options e
      [Called (git_pull "origin" b options) (Resolved tt);
       Called (push_u b) (Rejected e)].

(** The shapes a run of the reconciliation can take (lines 114-134), for a
    branch name already known. *)
Inductive reconcile_shape (b : string) : list Event -> Prop :=
| reconciled :
    reconcile_shape b
      (Said (spinner_text "Remote contains changes. Reconciling...")
       :: pull_push_ok b allow_unrelated_histories
       ++ [Said (spinner_succeed "Reconciled and pushed!")])
| rebased e1 merge :
    pull_push_failed b allow_unrelated_histories e1 merge ->
    reconcile_shape b
      (Said (spinner_text "Remote contains changes. Reconciling...")
       :: merge
       ++ Said (spinner_text "Trying rebase...")
       :: pull_push_ok b rebase_true
       ++ [Said (spinner_succeed "Rebased and pushed!")])
| critical e1 merge e2 rebase :
    pull_push_failed b allow_unrelated_histories e1 merge ->
    pull_push_failed b rebase_true e2 rebase ->
    reconcile_shape b
      (Said (spinner_text "Remote contains changes. Reconciling...")
       :: merge
       ++ Said (spinner_text "Trying rebase...")
       :: rebase
       ++ [Said (spinner_fail ("Critical failure syncing with remote: " ++ e2))]).

(** The calls of the sync with the remote (lines 104-138). *)
Definition is_sync (c : Cmd) : bool :=
  match c with
  | git_revparse _ | git_push_to _ _ _ | git_pull _ _ _ => true
  | _ => false
  end.

(** The calls of the branch selection (lines 19-36), the listing apart. *)
Definition is_selection (c : Cmd) : bool :=
  match c with
  | prompt_list _ _ _ _ | git_checkout _ => true
  | _ => false
  end.

(* ================================================================== *)
(** ** Stub worlds *)
(* ================================================================== *)

(** Every call resolves: a repository with a clean tree, on branch main,
    with an origin remote; prompts are answered with the default. *)
Definition calm (c : Cmd) : Outcome (Resp c) :=
  match c return Outcome (Resp c) with
  | git_checkIsRepo => Resolved true
  | git_status => Resolved []
  | git_add _ => Resolved tt
  | git_commit _ => Resolved tt
  | git_push => Resolved tt
  | git_push_to _ _ _ => Resolved tt
  | git_pull _ _ _ => Resolved tt
  | git_getRemotes => Resolved [{| name := "origin" |}]
  | git_addRemote _ _ => Resolved tt
  | git_revparse _ => Resolved "main"
  | git_branchLocal => Resolved {| all := ["main"]; current := "main" |}
  | git_checkout _ => Resolved tt
  | prompt_input _ _ => Resolved ""
  | prompt_list _ _ _ default => Resolved default
  end.

Definition noon : string := "2024-01-01T12:00:00.000Z".

(** In the stub worlds a call in flight settles before anything else
    happens. *)
Definition world_of (f : list Event -> forall c : Cmd, Outcome (Resp c))
  : World := {| answer := f; clock := fun _ => noon; next := fun _ => 0 |}.

Definition calm_world : World := world_of (fun _ c => calm c).

(** The plain push always rejects with [e]; all else is calm. *)
Definition plain_push_rejects (e : string) : World :=
  world_of (fun _ c =>
    match c return Outcome (Resp c) with
    | git_push => Rejected e
    | c => calm c
    end).

(** No upstream is set and the upstream-setting push rejects with [e]. *)
Definition upstream_push_rejects (e : string) : World :=
  world_of (fun _ c =>
    match c return Outcome (Resp c) with
    | git_push => Rejected "fatal: The current branch main has no upstream branch."
    | git_push_to _ _ _ => Rejected e
    | c => calm c
    end).

(** No upstream and no remote; the operator answers the prompt with [url]. *)
Definition no_remote (url : string) : World :=
  world_of (fun _ c =>
    match c return Outcome (Resp c) with
    | git_push => Rejected "fatal: No configured push destination."
    | git_getRemotes => Resolved []
    | prompt_input _ _ => Resolved url
    | c => calm c
    end).

(** No upstream, and the list of remotes cannot be read. *)
Definition remotes_unreadable : World :=
  world_of (fun _ c =>
    match c return Outcome (Resp c) with
    | git_push => Rejected "fatal: The current branch main has no upstream branch."
    | git_getRemotes => Rejected "fatal: unable to read config file"
    | c => calm c
    end).

(** The stage of the files named in [bad] rejects. *)
Definition stage_rejects (bad : list string) : World :=
  world_of (fun _ c =>
    match c return Outcome (Resp c) with
    | git_add p =>
        if existsb (String.eqb p) bad then Rejected "fatal: pathspec did not match"
        else Resolved tt
    | c => calm c
    end).

(** A status reader that answers the successive reads with [polls], then
    with a clean tree. *)
Definition status_reads (h : list Event) : nat :=
  length (filter (fun c => match c with git_status => true | _ => false end)
                 (cmds h)).

Definition status_stub (polls : list (list ChangedFile)) : World :=
  world_of (fun h c =>
    match c return Outcome (Resp c) with
    | git_status => Resolved (nth (status_reads h) polls [])
    | c => calm c
    end).

(** The directory is not a repository. *)
Definition not_a_repo : World :=
  world_of (fun _ c =>
    match c return Outcome (Resp c) with
    | git_checkIsRepo => Resolved false
    | c => calm c
    end).

(** The local branches cannot be listed. *)
Definition branches_unreadable : World :=
  world_of (fun _ c =>
    match c return Outcome (Resp c) with
    | git_branchLocal => Rejected "fatal: not a git repository"
    | c => calm c
    end).

Definition file (p : string) : ChangedFile :=
  {| path := p; working_dir := "M" |}.
Definition some_files (n : nat) : list ChangedFile :=
  map (fun k => file ("f" ++ string_of_nat k)) (seq 1 n).

(* ================================================================== *)
(** ** Further observations: what is issued, what escapes, how often *)
(* ================================================================== *)

(** The rejected call that an event shows settling, if it shows one. *)
Definition rejection (e : Event) : option (Cmd * string) :=
  match e with
  | Called c (Rejected message) => Some (c, message)
  | _ => None
  end.

(** [escapes P last p]: wherever [p] throws, it throws the message of the
    call rejected just before, and that call satisfies [P]. [last] is the
    rejected call that comes right before [p], if there is one. *)
Fixpoint escapes {A : Type} (P : Cmd -> Prop) (last : option (Cmd * string))
  (p : Prog A) : Prop :=
  match p with
  | Ret _ => True
  | Throw e => exists c, last = Some (c, e) /\ P c
  | Call c k =>
      forall r,
        escapes P (match r with
                   | Rejected e => Some (c, e)
                   | Resolved _ => None
                   end) (k r)
  | Say _ k | Timer _ k => escapes P None k
  | Now k => forall iso, escapes P None (k iso)
  | Next k => forall i, escapes P None (k i)
  | Issue _ k => forall r, escapes P None (k r)
  | Settle e k => escapes P (rejection e) k
  end.

(** [at_most f n p]: on no path does [p] issue more than [n] calls that
    satisfy [f]. *)
Fixpoint at_most {A : Type} (f : Cmd -> bool) (n : nat) (p : Prog A) : Prop :=
  match p with
  | Ret _ | Throw _ => True
  | Call c k =>
      if f c
      then match n with
           | O => False
           | S m => forall r, at_most f m (k r)
           end
      else forall r, at_most f n (k r)
  | Say _ k | Timer _ k => at_most f n k
  | Now k => forall iso, at_most f n (k iso)
  | Next k => forall i, at_most f n (k i)
  | Issue _ k => forall r, at_most f n (k r)
  | Settle e k =>
      match e with
      | Called c _ =>
          if f c
          then match n with
               | O => False
               | S m => at_most f m k
               end
          else at_most f n k
      | _ => at_most f n k
      end
  end.

(** The calls awaited outside every [try] in [pushChanges]: lines 61, 82
    and 117. *)
Definition is_unguarded (c : Cmd) : bool :=
  match c with
  | git_getRemotes | prompt_input _ _ | git_revparse _ => true
  | _ => false
  end.

(** The same with the prompt of [main] (line 21). *)
Definition is_unguarded_in_main (c : Cmd) : bool :=
  match c with
  | prompt_list _ _ _ _ => true
  | c => is_unguarded c
  end.

(** The calls that [processFiles] writes. *)
Definition is_batch_call (c : Cmd) : bool :=
  match c with
  | git_add _ | git_commit _ => true
  | _ => false
  end.

Definition eqb_options (a b : PullOptions) : bool :=
  match a, b with
  | [(n1, v1)], [(n2, v2)] =>
      (n1 =? n2)
      && match v1, v2 with
         | None, None => true
         | Some x, Some y => x =? y
         | _, _ => false
         end
  | _, _ => false
  end.

(** The calls that [pushChanges] writes, with the arguments it gives them. *)
Definition is_push_call (c : Cmd) : bool :=
  match c with
  | git_push | git_getRemotes => true
  | git_push_to remote _ options =>
      (remote =? "origin")
      && match options with [o] => o =? "-u" | _ => false end
  | git_pull remote _ options =>
      (remote =? "origin")
      && (eqb_options options allow_unrelated_histories
          || eqb_options options rebase_true)
  | git_addRemote remoteName _ => remoteName =? "origin"
  | git_revparse args =>
      match args with
      | [a; b] => (a =? "--abbrev-ref") && (b =? "HEAD")
      | _ => false
      end
  | prompt_input field message =>
      (field =? "remoteUrl") && (message =? remoteUrl_message)
  | _ => false
  end.

Definition is_pull (c : Cmd) : bool :=
  match c with git_pull _ _ _ => true | _ => false end.
Definition is_plain_push (c : Cmd) : bool :=
  match c with git_push => true | _ => false end.
Definition is_checkout (c : Cmd) : bool :=
  match c with git_checkout _ => true | _ => false end.
Definition any_call (c : Cmd) : bool := true.

(** Two local branches, main current; the operator picks [choice], and the
    checkout resolves or not. *)
Definition operator_picks (choice : string) (checkout_ok : bool) : World :=
  world_of (fun _ c =>
    match c return Outcome (Resp c) with
    | git_branchLocal =>
        Resolved {| all := ["main"; "dev"]; current := "main" |}
    | prompt_list _ _ _ _ => Resolved choice
    | git_checkout _ =>
        if checkout_ok then Resolved tt
        else Rejected "error: Your local changes would be overwritten by checkout"
    | c => calm c
    end).

(** The operator leaves the branch prompt without an answer. *)
Definition selection_aborted : World :=
  world_of (fun _ c =>
    match c return Outcome (Resp c) with
    | prompt_list _ _ _ _ => Rejected "User force closed the prompt"
    | c => calm c
    end).

(** Seven changed files at every status read, and the stage of the files
    named in [bad] rejects. *)
Definition seven_changed (bad : list string) : World :=
  world_of (fun _ c =>
    match c return Outcome (Resp c) with
    | git_status => Resolved (some_files 7)
    | git_add p =>
        if existsb (String.eqb p) bad then Rejected "fatal: pathspec did not match"
        else Resolved tt
    | c => calm c
    end).

(* ================================================================== *)
(** ** The interval: calls in flight, and worlds that settle in time *)
(* ================================================================== *)

(** Every call settles before the interval fires again: a call in flight, if
    there is one, is always the next event. *)
Definition settles_in_time (w : World) : Prop := forall h, next w h = 0.

(** What a call in flight may still issue, and what may escape from it. *)
Definition in_flight_issues {B : Type} (P : Cmd -> Prop) (x : InFlight B)
  : Prop :=
  match fst x with Called c _ => P c | _ => True end /\ issues_only P (snd x).

Definition in_flight_escapes {B : Type} (P : Cmd -> Prop) (x : InFlight B)
  : Prop :=
  escapes P (rejection (fst x)) (snd x).






(* ================================================================== *)
(** ** Proof conventions *)
(* ================================================================== *)

(** The blocks of the source are unfolded by name in the proofs, one at a
    time. *)
Arguments checkGitStatus : simpl never.
Arguments processFile : simpl never.
Arguments processFiles : simpl never.
Arguments linkUpstream : simpl never.
Arguments promptForRemote : simpl never.
Arguments reconcile : simpl never.
Arguments syncFailed : simpl never.
Arguments syncWithRemote : simpl never.
Arguments noUpstream : simpl never.
Arguments afterRemotes : simpl never.
Arguments remoteAhead : simpl never.
Arguments pushFailed : simpl never.
Arguments pushChanges : simpl never.
Arguments poll : simpl never.
Arguments waitForThreshold : simpl never.
Arguments getBranches : simpl never.
Arguments checkoutBranch : simpl never.
Arguments selectBranch : simpl never.
Arguments commitAndPush : simpl never.
Arguments cycle : simpl never.
Arguments main : simpl never.
Arguments string_of_nat : simpl never.
Arguments string_of_Z : simpl never.
Arguments commitMessage : simpl never.

(* ================================================================== *)
(** ** Substrings *)
(* ================================================================== *)

Lemma prefix_app (sub s : string) :
  String.prefix sub s = true <-> exists b, s = (sub ++ b)%string.
Proof.
  revert s; induction sub as [|a sub IH]; intros s; simpl.
  - split; [intros _; exists s; reflexivity | destruct s; reflexivity].
  - destruct s as [|c s]; simpl.
    + split; [discriminate | intros [b Hb]; discriminate].
    + destruct (ascii_dec a c) as [->|Hne].
      * rewrite IH. split; intros [b Hb]; exists b; simpl in *; congruence.
      * split; [discriminate | intros [b Hb]; simpl in Hb; congruence].
Qed.

Lemma includes_unfold (s sub : string) :
  includes s sub =
  if String.prefix sub s then true
  else match s with
       | EmptyString => false
       | String _ s' => includes s' sub
       end.
Proof. destruct s; reflexivity. Qed.

(** [includes] is the substring relation. *)
Lemma includes_spec (s sub : string) :
  includes s sub = true <-> exists a b, s = (a ++ sub ++ b)%string.
Proof.
  induction s as [|c s IH]; rewrite includes_unfold;
    destruct (String.prefix sub _) eqn:Hp.
  - apply prefix_app in Hp as [b Hb].
    split; [intros _; exists "", b; exact Hb | reflexivity].
  - split; [discriminate|].
    intros [a [b Hab]]. destruct a; simpl in Hab.
    + assert (String.prefix sub "" = true) by (apply prefix_app; eauto).
      congruence.
    + discriminate.
  - apply prefix_app in Hp as [b Hb].
    split; [intros _; exists "", b; exact Hb | reflexivity].
  - rewrite IH. split.
    + intros [a [b Hab]]. exists (String c a), b. simpl. congruence.
    + intros [a [b Hab]]. destruct a as [|c' a]; simpl in Hab.
      * assert (String.prefix sub (String c s) = true)
          by (apply prefix_app; eauto).
        congruence.
      * exists a, b. congruence.
Qed.

(* ================================================================== *)
(** ** Running sequences and handlers *)
(* ================================================================== *)

Lemma run_bind {A B : Type} (w : World) (p : Prog A) (f : A -> Prog B) :
  forall h,
    run w h (bind p f) =
    match run w h p with
    | (t, Resolved a) => let '(t', r) := run w (h ++ t) (f a) in (t ++ t', r)
    | (t, Rejected e) => (t, Rejected e)
    end.
Proof.
  induction p as [a|e|c k IH|o k IH|ms k IH|k IH|k IH|c k IH|ev k IH]; intros h; simpl.
  - rewrite app_nil_r. now destruct (run w h (f a)).
  - reflexivity.
  - rewrite IH. destruct (run w _ (k _)) as [t [a|e]]; [|reflexivity].
    rewrite <- app_assoc. simpl. now destruct (run w _ (f a)).
  - rewrite IH. destruct (run w _ k) as [t [a|e]]; [|reflexivity].
    rewrite <- app_assoc. simpl. now destruct (run w _ (f a)).
  - rewrite IH. destruct (run w _ k) as [t [a|e]]; [|reflexivity].
    rewrite <- app_assoc. simpl. now destruct (run w _ (f a)).
  - rewrite IH. destruct (run w _ (k _)) as [t [a|e]]; [|reflexivity].
    rewrite <- app_assoc. simpl. now destruct (run w _ (f a)).
  - apply IH.
  - apply IH.
  - rewrite IH. destruct (run w _ k) as [t [a|e]]; [|reflexivity].
    rewrite <- app_assoc. simpl. now destruct (run w _ (f a)).
Qed.

Lemma run_try_catch {A : Type} (w : World) (p : Prog A) (handler : string -> Prog A) :
  forall h,
    run w h (try_catch p handler) =
    match run w h p with
    | (t, Resolved a) => (t, Resolved a)
    | (t, Rejected e) =>
        let '(t', r) := run w (h ++ t) (handler e) in (t ++ t', r)
    end.
Proof.
  induction p as [a|e|c k IH|o k IH|ms k IH|k IH|k IH|c k IH|ev k IH]; intros h; simpl.
  - reflexivity.
  - rewrite app_nil_r. now destruct (run w h (handler e)).
  - rewrite IH. destruct (run w _ (k _)) as [t [a|e]]; [reflexivity|].
    rewrite <- app_assoc. simpl. now destruct (run w _ (handler e)).
  - rewrite IH. destruct (run w _ k) as [t [a|e]]; [reflexivity|].
    rewrite <- app_assoc. simpl. now destruct (run w _ (handler e)).
  - rewrite IH. destruct (run w _ k) as [t [a|e]]; [reflexivity|].
    rewrite <- app_assoc. simpl. now destruct (run w _ (handler e)).
  - rewrite IH. destruct (run w _ (k _)) as [t [a|e]]; [reflexivity|].
    rewrite <- app_assoc. simpl. now destruct (run w _ (handler e)).
  - apply IH.
  - apply IH.
  - rewrite IH. destruct (run w _ k) as [t [a|e]]; [reflexivity|].
    rewrite <- app_assoc. simpl. now destruct (run w _ (handler e)).
Qed.

Lemma cmds_app (t1 t2 : list Event) : cmds (t1 ++ t2) = cmds t1 ++ cmds t2.
Proof.
  induction t1 as [|[c r|o|ms|iso] t1 IH]; simpl; congruence.
Qed.

(** A program that issues only [P]-calls leaves only [P]-calls in the trace. *)
Lemma issues_only_run {A : Type} (P : Cmd -> Prop) (w : World) (p : Prog A) :
  issues_only P p -> forall h, Forall P (cmds (trace_of w h p)).
Proof.
  unfold trace_of.
  induction p as [a|e|c k IH|o k IH|ms k IH|k IH|k IH|c k IH|ev k IH]; simpl; intros Hp h.
  - constructor.
  - constructor.
  - destruct Hp as [Hc Hk].
    specialize (IH _ (Hk (answer w h c)) (h ++ [Called c (answer w h c)])).
    destruct (run w _ (k _)) as [t o]. simpl in *. now constructor.
  - specialize (IH Hp (h ++ [Said o])).
    destruct (run w _ k) as [t res]. exact IH.
  - specialize (IH Hp (h ++ [Waited ms])).
    destruct (run w _ k) as [t res]. exact IH.
  - specialize (IH _ (Hp (clock w h)) (h ++ [Clock (clock w h)])).
    destruct (run w _ (k _)) as [t res]. exact IH.
  - exact (IH _ (Hp _) h).
  - destruct Hp as [_ Hk]. exact (IH _ (Hk _) h).
  - destruct Hp as [Hev Hk]. specialize (IH Hk (h ++ [ev])).
    destruct (run w _ k) as [t res]. simpl in *.
    destruct ev; simpl; auto.
Qed.

Lemma issues_only_bind {A B : Type} (P : Cmd -> Prop) (p : Prog A) (f : A -> Prog B) :
  issues_only P p -> (forall a, issues_only P (f a)) -> issues_only P (bind p f).
Proof.
  intros Hp Hf. induction p as [a|e|c k IH|o k IH|ms k IH|k IH|k IH|c k IH|ev k IH]; simpl in *; auto.
  - destruct Hp as [Hc Hk]. split; auto.
  - destruct Hp as [Hc Hk]. split; auto.
  - destruct Hp as [Hc Hk]. split; auto.
Qed.

Lemma issues_only_try_catch {A : Type} (P : Cmd -> Prop) (p : Prog A) handler :
  issues_only P p -> (forall e, issues_only P (handler e)) ->
  issues_only P (try_catch p handler).
Proof.
  intros Hp Hf. induction p as [a|e|c k IH|o k IH|ms k IH|k IH|k IH|c k IH|ev k IH]; simpl in *; auto.
  - destruct Hp as [Hc Hk]. split; auto.
  - destruct Hp as [Hc Hk]. split; auto.
  - destruct Hp as [Hc Hk]. split; auto.
Qed.

Lemma issues_only_for_of {A : Type} (P : Cmd -> Prop) (xs : list A) body :
  (forall x, issues_only P (body x)) -> issues_only P (for_of xs body).
Proof.
  intros Hb. induction xs as [|x xs IH]; simpl; [exact I|].
  apply issues_only_bind; auto.
Qed.

(* ================================================================== *)
(** ** The push reconciler: classification of the first failure *)
(* ================================================================== *)

Lemma remoteAhead_run (w : World) (h : list Event) :
  remoteAhead_shape (trace_of w h remoteAhead)
  /\ settles w h remoteAhead = Resolved tt.
Proof.
  unfold trace_of, settles, remoteAhead, abbrev_ref_HEAD. simpl.
  destruct (answer w _ (git_revparse _)) as [b|e1]; simpl.
  - destruct (answer w _ (git_pull _ _ _)) as [[]|e2]; simpl.
    + destruct (answer w _ git_push) as [[]|e3]; simpl;
        split; try reflexivity; constructor.
    + split; [constructor | reflexivity].
  - split; [constructor | reflexivity].
Qed.

(** C1, amended. When the first, plain push rejects with message [e],
    [pushChanges] goes one of three ways on the text of [e], tested
    case-sensitively: if [e] contains "No configured push destination"
    (capital N, as git words it) or "no upstream branch", it reports that no
    upstream is configured and queries the list of remotes; otherwise, if [e]
    contains "fetch first", "rejected" or "divergent branches", it runs the
    remote-ahead recovery (read the branch, pull with rebase, plain push) and
    resolves; otherwise it reports "Failed to push changes" and resolves
    having made no further call. *)
Theorem pushChanges_classifies_push_failure
  (w : World) (h : list Event) (e : string) :
  answer w (h ++ [Said (ora_start "Pushing changes...")]) git_push = Rejected e ->
  let failed := [Said (ora_start "Pushing changes...");
                 Called git_push (Rejected e)] in
  if includes e "No configured push destination"
     || includes e "no upstream branch"
  then
    exists remotes rest,
      trace_of w h pushChanges =
      failed ++ Said (spinner_fail "No remote/upstream configured.")
             :: Called git_getRemotes remotes :: rest
  else if includes e "fetch first" || includes e "rejected"
          || includes e "divergent branches"
  then
    exists rest,
      trace_of w h pushChanges = failed ++ rest
      /\ remoteAhead_shape rest
      /\ settles w h pushChanges = Resolved tt
  else
    trace_of w h pushChanges =
    failed ++ [Said (spinner_fail ("Failed to push changes: " ++ e))]
    /\ settles w h pushChanges = Resolved tt.
Proof.
  intros Hpush failed. subst failed.
  unfold trace_of, settles, pushChanges. simpl. rewrite Hpush. simpl.
  unfold pushFailed, isNoUpstream, isRemoteAhead.
  destruct (includes e "No configured push destination"
            || includes e "no upstream branch").
  - unfold noUpstream. simpl.
    destruct (run w _ _) as [rest res]. simpl. eauto.
  - destruct (includes e "fetch first" || includes e "rejected"
              || includes e "divergent branches").
    + pose proof (remoteAhead_run w
        ((h ++ [Said (ora_start "Pushing changes...")])
           ++ [Called git_push (Rejected e)])) as [Hshape Hres].
      unfold trace_of, settles in *.
      destruct (run w _ remoteAhead) as [rest res]. simpl in *.
      exists rest. auto.
    + simpl. auto.
Qed.

(* ================================================================== *)
(** ** The push reconciler: a rejected upstream-setting push *)
(* ================================================================== *)

Lemma reconcile_run (w : World) (h : list Event) (b : string) :
  truthy b = true ->
  reconcile_shape b (trace_of w h (reconcile (Some b)))
  /\ settles w h (reconcile (Some b)) = Resolved tt.
Proof.
  intros Hb. unfold trace_of, settles, reconcile. rewrite Hb.
  unfold push_u. simpl.
  destruct (answer w _ (git_pull _ _ allow_unrelated_histories)) as [[]|e1]; simpl.
  - destruct (answer w _ (git_push_to _ _ _)) as [[]|e2]; simpl.
    + split; [apply reconciled | reflexivity].
    + destruct (answer w _ (git_pull _ _ rebase_true)) as [[]|e3]; simpl.
      * destruct (answer w _ (git_push_to _ _ _)) as [[]|e4]; simpl;
          (split; [|reflexivity]).
        -- apply (rebased b e2 [_; _]). constructor.
        -- apply (critical b e2 [_; _] e4 [_; _]); constructor.
      * split; [|reflexivity].
        apply (critical b e2 [_; _] e3 [_]); constructor.
  - destruct (answer w _ (git_pull _ _ rebase_true)) as [[]|e3]; simpl.
    + destruct (answer w _ (git_push_to _ _ _)) as [[]|e4]; simpl;
        (split; [|reflexivity]).
      * apply (rebased b e1 [_]). constructor.
      * apply (critical b e1 [_] e4 [_; _]); constructor.
    + split; [|reflexivity].
      apply (critical b e1 [_] e3 [_]); constructor.
Qed.

(** C2, amended. The order "unrelated-histories pull first, rebase only after
    that failed" is that of the sync with the remote, not of every push
    failure. When the upstream-setting push of [syncWithRemote] (push origin
    <branch> -u, for a non-empty branch name) rejects with a message that
    contains "rejected", what follows has one of three shapes: the pull with
    unrelated histories allowed and the push -u both resolve; or one of them
    rejects, and then the pull with rebase and the push -u both resolve; or
    one of these rejects in turn, and the critical sync failure is reported.
    Whichever it is, the promise resolves. *)
Theorem rejected_upstream_push_merges_before_rebase
  (w : World) (h : list Event) (b e : string) :
  let h1 := h ++ [Said (ora_start "Syncing with remote...")] in
  answer w h1 abbrev_ref_HEAD = Resolved b ->
  truthy b = true ->
  answer w (h1 ++ [Called abbrev_ref_HEAD (Resolved b)]) (push_u b) = Rejected e ->
  includes e "rejected" = true ->
  exists rest,
    trace_of w h syncWithRemote =
    [Said (ora_start "Syncing with remote...");
     Called abbrev_ref_HEAD (Resolved b);
     Called (push_u b) (Rejected e)] ++ rest
    /\ reconcile_shape b rest
    /\ settles w h syncWithRemote = Resolved tt.
Proof.
  intros h1 Hread Hb Hpush Hrej. subst h1.
  unfold trace_of, settles, syncWithRemote. simpl.
  unfold abbrev_ref_HEAD in *. rewrite Hread. simpl.
  unfold push_u in *. rewrite Hpush. simpl.
  unfold syncFailed, isDiverged. rewrite Hrej, orb_true_r. cbn.
  match goal with
  | |- context [run w ?h' (reconcile (Some b))] =>
      pose proof (reconcile_run w h' b Hb) as [Hshape Hres]
  end.
  unfold trace_of, settles in *.
  destruct (run w _ (reconcile (Some b))) as [rest res]. simpl in *.
  exists rest. auto.
Qed.

(* ================================================================== *)
(** ** The push reconciler: no upstream *)
(* ================================================================== *)

Ltac issues :=
  repeat match goal with
    | |- issues_only _ (bind _ _) => apply issues_only_bind
    | |- issues_only _ (try_catch _ _) => apply issues_only_try_catch
    | |- issues_only _ (for_of _ _) => apply issues_only_for_of
    | |- issues_only _ (if ?b then _ else _) => destruct b
    | |- issues_only _ (match ?x with _ => _ end) => destruct x
    | |- forall _, _ => intro
    | |- _ /\ _ => split
    | |- True => exact I
    | |- _ = _ => reflexivity
    | |- issues_only _ _ => progress cbn
    end.

Lemma syncWithRemote_calls :
  issues_only (fun c => is_sync c = true) syncWithRemote.
Proof.
  unfold syncWithRemote, syncFailed, reconcile, abbrev_ref_HEAD, push_u.
  issues.
Qed.

Lemma linkUpstream_calls :
  issues_only (fun c => is_sync c = true) linkUpstream.
Proof. unfold linkUpstream, abbrev_ref_HEAD, push_u. issues. Qed.

Lemma afterRemotes_origin_calls (o : Remote) :
  issues_only (fun c => is_sync c = true) (afterRemotes (Some o)).
Proof.
  unfold afterRemotes.
  apply issues_only_bind.
  - apply issues_only_bind; [apply linkUpstream_calls | intros; exact I].
  - intros [[] url]; cbn; [exact I|]. apply syncWithRemote_calls.
Qed.

Lemma is_sync_not_prompt (c : Cmd) : is_sync c = true -> is_prompt c = false.
Proof. destruct c; simpl; congruence. Qed.

Lemma is_sync_not_addRemote (c : Cmd) : is_sync c = true -> is_addRemote c = false.
Proof. destruct c; simpl; congruence. Qed.

Lemma pushChanges_no_upstream_run (w : World) (h : list Event) (e : string)
  (remotes : list Remote) :
  let h1 := h ++ [Said (ora_start "Pushing changes...")] in
  let h2 := (h1 ++ [Called git_push (Rejected e)])
              ++ [Said (spinner_fail "No remote/upstream configured.")] in
  answer w h1 git_push = Rejected e ->
  isNoUpstream e = true ->
  answer w h2 git_getRemotes = Resolved remotes ->
  run w h pushChanges =
  let '(t, res) := run w (h2 ++ [Called git_getRemotes (Resolved remotes)])
                       (afterRemotes (findOrigin remotes)) in
  ([Said (ora_start "Pushing changes...");
    Called git_push (Rejected e);
    Said (spinner_fail "No remote/upstream configured.");
    Called git_getRemotes (Resolved remotes)] ++ t, res).
Proof.
  intros h1 h2 Hpush Hno Hrem. subst h1 h2.
  unfold pushChanges. cbn. rewrite Hpush. cbn.
  unfold pushFailed. rewrite Hno. unfold noUpstream. cbn.
  cbn in Hrem. rewrite Hrem. cbn.
  destruct (run w _ (afterRemotes _)) as [t res]. reflexivity.
Qed.

(** C3. The first push rejects for want of an upstream and the remotes hold
    one named origin. Then no prompt is issued in the whole run, whatever the
    answers; the next call is the read of the current branch and, when it
    resolves with [b], the one after is push origin [b] -u. When that push
    resolves the run ends with the success report; when it rejects with
    [linkErr], the failure is reported with [linkErr] and the sync with the
    remote starts: the branch is read again and, when it resolves with [b2],
    push origin [b2] -u is attempted. *)
Theorem origin_without_upstream_is_linked_without_prompt
  (w : World) (h : list Event) (e : string) (remotes : list Remote) (o : Remote) :
  let h1 := h ++ [Said (ora_start "Pushing changes...")] in
  let h2 := (h1 ++ [Called git_push (Rejected e)])
              ++ [Said (spinner_fail "No remote/upstream configured.")] in
  let opening :=
    [Said (ora_start "Pushing changes...");
     Called git_push (Rejected e);
     Said (spinner_fail "No remote/upstream configured.");
     Called git_getRemotes (Resolved remotes);
     Said (spinner_text ("Remote " ++ dquote ++ "origin" ++ dquote
                         ++ " found. Attempting to link upstream..."))] in
  answer w h1 git_push = Rejected e ->
  isNoUpstream e = true ->
  answer w h2 git_getRemotes = Resolved remotes ->
  findOrigin remotes = Some o ->
  Forall (fun c => is_prompt c = false) (cmds (trace_of w h pushChanges))
  /\ exists read rest,
      trace_of w h pushChanges = opening ++ Called abbrev_ref_HEAD read :: rest
      /\ forall b, read = Resolved b ->
         exists pushed rest1,
           rest = Called (push_u b) pushed :: rest1
           /\ (pushed = Resolved tt ->
               rest1 = [Said (spinner_succeed "Upstream linked and changes pushed!")]
               /\ settles w h pushChanges = Resolved tt)
           /\ forall linkErr, pushed = Rejected linkErr ->
              exists read2 rest2,
                rest1 = Said (spinner_fail ("Failed to link upstream: " ++ linkErr))
                        :: Said (ora_start "Syncing with remote...")
                        :: Called abbrev_ref_HEAD read2 :: rest2
                /\ forall b2, read2 = Resolved b2 ->
                   exists pushed2 rest3,
                     rest2 = Called (push_u b2) pushed2 :: rest3.
Proof.
  intros h1 h2 opening Hpush Hno Hrem Horigin.
  pose proof (pushChanges_no_upstream_run w h e remotes Hpush Hno Hrem) as Hrun.
  fold h1 h2 in Hrun. rewrite Horigin in Hrun.
  unfold trace_of, settles. rewrite Hrun. clear Hrun.
  split.
  - pose proof (issues_only_run _ w _ (afterRemotes_origin_calls o)
                  (h2 ++ [Called git_getRemotes (Resolved remotes)])) as Hcalls.
    unfold trace_of in Hcalls.
    destruct (run w _ (afterRemotes (Some o))) as [t res]. simpl in *.
    repeat (constructor; [reflexivity|]).
    eapply Forall_impl; [|exact Hcalls].
    intros c Hc. now apply is_sync_not_prompt.
  - subst opening.
    unfold afterRemotes, linkUpstream, abbrev_ref_HEAD, push_u. cbn.
    destruct (answer w _ (git_revparse _)) as [b|e1]; cbn.
    + destruct (answer w _ (git_push_to _ _ _)) as [[]|linkErr]; cbn.
      * do 2 eexists. split; [reflexivity|].
        intros b0 Hb0. injection Hb0 as <-.
        do 2 eexists. split; [reflexivity|]. split.
        -- intros _. split; reflexivity.
        -- intros ? Hfalse. discriminate.
      * unfold syncWithRemote, abbrev_ref_HEAD, push_u. cbn.
        destruct (answer w _ (git_revparse _)) as [b2|e2]; cbn.
        -- destruct (answer w _ (git_push_to _ _ _)) as [[]|e3]; cbn.
           ++ do 2 eexists. split; [reflexivity|].
              intros b0 Hb0. injection Hb0 as <-.
              do 2 eexists. split; [reflexivity|]. split; [discriminate|].
              intros le Hle. injection Hle as <-.
              do 2 eexists. split; [reflexivity|].
              intros b3 Hb3. injection Hb3 as <-.
              do 2 eexists. reflexivity.
           ++ destruct (run w _ (syncFailed _ _)) as [t res]. cbn.
              do 2 eexists. split; [reflexivity|].
              intros b0 Hb0. injection Hb0 as <-.
              do 2 eexists. split; [reflexivity|]. split; [discriminate|].
              intros le Hle. injection Hle as <-.
              do 2 eexists. split; [reflexivity|].
              intros b3 Hb3. injection Hb3 as <-.
              do 2 eexists. reflexivity.
        -- destruct (run w _ (syncFailed _ _)) as [t res]. cbn.
           do 2 eexists. split; [reflexivity|].
           intros b0 Hb0. injection Hb0 as <-.
           do 2 eexists. split; [reflexivity|]. split; [discriminate|].
           intros le Hle. injection Hle as <-.
           do 2 eexists. split; [reflexivity|].
           intros b3 Hb3. discriminate.
    + destruct (run w _ syncWithRemote) as [t res]. cbn.
      do 2 eexists. split; [reflexivity|].
      intros b0 Hb0. discriminate.
Qed.

Lemma truthy_nonempty (s : string) : truthy s = true <-> s <> "".
Proof.
  unfold truthy. rewrite negb_true_iff. apply String.eqb_neq.
Qed.

Lemma filter_none {A : Type} (f : A -> bool) (l : list A) :
  Forall (fun x => f x = false) l -> filter f l = [].
Proof.
  induction 1 as [|x l Hx _ IH]; simpl; [reflexivity|]. now rewrite Hx.
Qed.

Lemma syncWithRemote_adds_no_remote (w : World) (h : list Event) :
  filter is_addRemote (cmds (trace_of w h syncWithRemote)) = [].
Proof.
  apply filter_none.
  eapply Forall_impl; [|apply (issues_only_run _ w _ syncWithRemote_calls)].
  intros c Hc. now apply is_sync_not_addRemote.
Qed.

Lemma syncWithRemote_success (w : World) (h : list Event) (b : string) :
  let h1 := h ++ [Said (ora_start "Syncing with remote...")] in
  answer w h1 abbrev_ref_HEAD = Resolved b ->
  answer w (h1 ++ [Called abbrev_ref_HEAD (Resolved b)]) (push_u b)
  = Resolved tt ->
  run w h syncWithRemote =
  ([Said (ora_start "Syncing with remote...");
    Called abbrev_ref_HEAD (Resolved b);
    Called (push_u b) (Resolved tt);
    Said (spinner_succeed "Remote configured and changes pushed!")],
   Resolved tt).
Proof.
  intros h1 Hread Hpush. subst h1.
  unfold syncWithRemote, abbrev_ref_HEAD, push_u in *. cbn in *.
  rewrite Hread. cbn. rewrite Hpush. reflexivity.
Qed.

Lemma syncWithRemote_starts (w : World) (h : list Event) :
  exists rest,
    trace_of w h syncWithRemote = Said (ora_start "Syncing with remote...") :: rest.
Proof.
  unfold trace_of, syncWithRemote. cbn.
  destruct (run w _ _) as [t res]. cbn. eauto.
Qed.

(** C4. The first push rejects for want of an upstream, no remote is named
    origin, and the operator answers the prompt with [url]. If [url] is empty
    the run ends there, resolved, with no further call. If it is not, the run
    holds exactly one add-remote call, it is [addRemote origin url] and comes
    right after the prompt, and whether it resolves or rejects (a rejection is
    only logged) the sync with the remote starts. In the success case, where
    the read of the branch then resolves with [b] and push origin [b] -u
    resolves, the run is exactly the prompt, the add-remote call, the read of
    the branch, that push and the success report: the push is the only push
    with -u of the run, and the promise resolves. *)
Theorem no_remote_prompt_then_one_addRemote_one_push
  (w : World) (h : list Event) (e url : string) (remotes : list Remote) :
  let h1 := h ++ [Said (ora_start "Pushing changes...")] in
  let h2 := (h1 ++ [Called git_push (Rejected e)])
              ++ [Said (spinner_fail "No remote/upstream configured.")] in
  let not_connected :=
    Said (console_log (newline ++ "It looks like this repository is not connected to a remote server.")) in
  let h3 := (h2 ++ [Called git_getRemotes (Resolved remotes)])
              ++ [not_connected] in
  let asked :=
    [Said (ora_start "Pushing changes...");
     Called git_push (Rejected e);
     Said (spinner_fail "No remote/upstream configured.");
     Called git_getRemotes (Resolved remotes);
     not_connected;
     Called (prompt_input "remoteUrl" remoteUrl_message) (Resolved url)] in
  answer w h1 git_push = Rejected e ->
  isNoUpstream e = true ->
  answer w h2 git_getRemotes = Resolved remotes ->
  findOrigin remotes = None ->
  answer w h3 (prompt_input "remoteUrl" remoteUrl_message) = Resolved url ->
  (url = "" ->
   trace_of w h pushChanges = asked
   /\ settles w h pushChanges = Resolved tt)
  /\ (url <> "" ->
      let added := answer w (h ++ asked) (git_addRemote "origin" url) in
      let linked :=
        asked ++ Called (git_addRemote "origin" url) added
              :: match added with
                 | Resolved _ => []
                 | Rejected _ =>
                     [Said (console_log
                              ("Remote " ++ dquote ++ "origin" ++ dquote
                               ++ " might already exist, proceeding..."))]
                 end
              ++ [Said (ora_start "Syncing with remote...")] in
      count_calls is_addRemote (trace_of w h pushChanges) = 1
      /\ (exists rest, trace_of w h pushChanges = linked ++ rest)
      /\ forall b,
          answer w (h ++ linked) abbrev_ref_HEAD = Resolved b ->
          answer w ((h ++ linked) ++ [Called abbrev_ref_HEAD (Resolved b)])
                 (push_u b) = Resolved tt ->
          trace_of w h pushChanges =
          linked ++ [Called abbrev_ref_HEAD (Resolved b);
                     Called (push_u b) (Resolved tt);
                     Said (spinner_succeed "Remote configured and changes pushed!")]
          /\ count_calls is_push_u (trace_of w h pushChanges) = 1
          /\ settles w h pushChanges = Resolved tt).
Proof.
  intros h1 h2 not_connected h3 asked Hpush Hno Hrem Horigin Hask.
  pose proof (pushChanges_no_upstream_run w h e remotes Hpush Hno Hrem) as Hrun.
  rewrite Horigin in Hrun.
  assert (Hasked : h ++ asked
                   = h3 ++ [Called (prompt_input "remoteUrl" remoteUrl_message)
                                   (Resolved url)]).
  { subst h1 h2 h3 asked. repeat rewrite <- app_assoc. reflexivity. }
  split.
  - unfold trace_of, settles. rewrite Hrun. clear Hrun Hasked.
    subst h1 h2 h3 asked not_connected. unfold afterRemotes, promptForRemote.
    cbn in *. rewrite Hask. cbn.
    intros ->. cbn. split; reflexivity.
  - intros Hurl added linked.
    unfold trace_of, settles. rewrite Hrun. clear Hrun.
    match goal with
    | |- context [run w ?h' (afterRemotes None)] =>
        assert (Hlinked : exists pre,
                   h ++ linked
                   = pre ++ [Said (ora_start "Syncing with remote...")]
                   /\ run w h' (afterRemotes None)
                      = let '(t, res) := run w pre syncWithRemote in
                        (skipn 4 (removelast linked) ++ t, res))
    end.
    { subst linked added. rewrite (app_assoc h asked), Hasked.
      subst h1 h2 h3 asked not_connected. unfold afterRemotes, promptForRemote.
      apply truthy_nonempty in Hurl.
      cbn in Hask |- *. rewrite Hask. cbn. rewrite Hurl. cbn.
      destruct (answer w _ (git_addRemote _ _)) as [[]|e1]; cbn; rewrite Hurl;
        match goal with
        | |- context [run w ?p syncWithRemote] => exists p
        end;
        (split; [repeat rewrite <- app_assoc; reflexivity
                |destruct (run w _ syncWithRemote) as [t res]; reflexivity]). }
    destruct Hlinked as (pre & Hpre & Hrun). rewrite Hrun, Hpre. clear Hrun Hpre.
    pose proof (syncWithRemote_adds_no_remote w pre) as Hnone.
    pose proof (syncWithRemote_success w pre) as Hsuccess.
    destruct (syncWithRemote_starts w pre) as [rest Hstart].
    unfold trace_of in Hnone, Hstart. cbn in Hsuccess.
    destruct (run w pre syncWithRemote) as [t res]. cbn in Hnone, Hstart.
    subst t. cbn in Hnone.
    clearbody added.
    destruct added as [[]|e1]; subst linked asked not_connected;
      unfold count_calls; cbn; rewrite Hnone;
      (split; [reflexivity|split; [exists rest; reflexivity|]]);
      intros b Hread Hpushed;
      specialize (Hsuccess b Hread Hpushed);
      injection Hsuccess as -> ->; repeat split.
Qed.

(** [getRemotes] is awaited outside every [try]: its rejection leaves
    [pushChanges] as a rejection. *)
Lemma unreadable_remotes_reject_pushChanges
  (w : World) (h : list Event) (e e' : string) :
  let h1 := h ++ [Said (ora_start "Pushing changes...")] in
  let h2 := (h1 ++ [Called git_push (Rejected e)])
              ++ [Said (spinner_fail "No remote/upstream configured.")] in
  answer w h1 git_push = Rejected e ->
  isNoUpstream e = true ->
  answer w h2 git_getRemotes = Rejected e' ->
  settles w h pushChanges = Rejected e'.
Proof.
  intros h1 h2 Hpush Hno Hrem. subst h1 h2.
  unfold settles, pushChanges. cbn in *. rewrite Hpush. cbn.
  unfold pushFailed. rewrite Hno. unfold noUpstream. cbn.
  rewrite Hrem. reflexivity.
Qed.

(* ================================================================== *)
(** ** The batch committer *)
(* ================================================================== *)

Lemma processFile_run (w : World) (h : list Event) (f : ChangedFile) :
  file_attempt f (trace_of w h (processFile f))
  /\ settles w h (processFile f) = Resolved tt.
Proof.
  unfold trace_of, settles, processFile. cbn.
  destruct (answer w _ (git_add _)) as [[]|e1]; cbn.
  - destruct (answer w _ (git_commit _)) as [[]|e2]; cbn;
      split; try reflexivity; constructor.
  - split; [constructor | reflexivity].
Qed.

Lemma for_of_processFile_run (w : World) (fs : list ChangedFile) :
  forall h,
    batch fs (trace_of w h (for_of fs processFile))
    /\ settles w h (for_of fs processFile) = Resolved tt.
Proof.
  unfold trace_of, settles.
  induction fs as [|f fs IH]; intros h; cbn.
  - split; [constructor | reflexivity].
  - rewrite run_bind.
    pose proof (processFile_run w h f) as [Hf Hres].
    unfold trace_of, settles in Hf, Hres.
    destruct (run w h (processFile f)) as [t res]. cbn in Hf, Hres. subst res.
    specialize (IH (h ++ t)) as [Hfs Hres].
    destruct (run w (h ++ t) (for_of fs processFile)) as [ts res].
    cbn in *. split; [now constructor | exact Hres].
Qed.

(** What [processFiles] does with a non-empty list. *)
Lemma processFiles_run (w : World) (h : list Event) (fs : list ChangedFile)
  (limit : Z) :
  fs <> [] ->
  exists ts,
    trace_of w h (processFiles (Some fs) limit) =
    Said (console_log ("Processing "
                       ++ string_of_nat (length (filesToProcess fs limit))
                       ++ " files...")) :: ts
    /\ batch (filesToProcess fs limit) ts
    /\ settles w h (processFiles (Some fs) limit) = Resolved tt.
Proof.
  intros Hne. unfold trace_of, settles, processFiles.
  destruct fs as [|f fs]; [congruence|]. cbn.
  match goal with
  | |- context [run w ?h' (for_of ?l processFile)] =>
      pose proof (for_of_processFile_run w l h') as [Hb Hres];
      unfold trace_of, settles in Hb, Hres;
      destruct (run w h' (for_of l processFile)) as [ts res]
  end.
  cbn in *. exists ts. auto.
Qed.

Lemma stage_results_app (t1 t2 : list Event) :
  stage_results (t1 ++ t2) = stage_results t1 ++ stage_results t2.
Proof.
  induction t1 as [|ev t1 IH]; [reflexivity|].
  destruct ev as [c r|o|ms|iso]; cbn; try exact IH.
  destruct c; cbn; try exact IH.
  destruct r; cbn; now rewrite IH.
Qed.

Lemma file_attempt_stage (f : ChangedFile) (t : list Event) :
  file_attempt f t ->
  exists ok, stage_results t = [(path f, ok)]
    /\ forall rest,
        commits_of (t ++ rest) = (if ok then [path f] else []) ++ commits_of rest
        /\ filter is_commit (cmds (t ++ rest))
           = (if ok then filter is_commit (cmds t) else [])
               ++ filter is_commit (cmds rest)
        /\ length (filter is_commit (cmds t)) = (if ok then 1 else 0).
Proof.
  intros [e|iso e|iso].
  - exists false. split; [reflexivity|]. intros rest. cbn. auto.
  - exists true. split; [reflexivity|]. intros rest. cbn.
    rewrite String.eqb_refl. auto.
  - exists true. split; [reflexivity|]. intros rest. cbn.
    rewrite String.eqb_refl. auto.
Qed.

(** In a batch, the stage calls are those of the files, in order, and the
    commit attempts are those of the files whose stage resolved. *)
Lemma batch_stages (fs : list ChangedFile) (ts : list Event) :
  batch fs ts ->
  stages ts = map path fs
  /\ commits_of ts = resolved_stages ts
  /\ length (filter is_commit (cmds ts)) = length (commits_of ts).
Proof.
  unfold stages, resolved_stages.
  induction 1 as [|f fs t ts Hf Hfs (IH1 & IH2 & IH3)]; [now cbn|].
  destruct (file_attempt_stage f t Hf) as (ok & Hst & Hrest).
  destruct (Hrest ts) as (Hc & Hk & Hn).
  rewrite stage_results_app, Hst, Hc, Hk. cbn.
  destruct ok; cbn; rewrite ?length_app, ?Hn, ?IH1, ?IH3, <- ?IH2; cbn; auto.
Qed.

Lemma firstn_min_length {A : Type} (n : nat) (l : list A) :
  firstn (Nat.min (length l) n) l = firstn n l.
Proof.
  destruct (Nat.le_ge_cases n (length l)) as [Hle|Hge].
  - now rewrite Nat.min_r.
  - rewrite Nat.min_l by exact Hge.
    now rewrite firstn_all, firstn_all2.
Qed.

(** With a limit of at least one, the files processed are the first
    [min(N, L)] of the list. *)
Lemma filesToProcess_prefix (fs : list ChangedFile) (limit : Z) :
  (1 <= limit)%Z ->
  filesToProcess fs limit = firstn (Nat.min (length fs) (Z.to_nat limit)) fs.
Proof.
  intros Hl. unfold filesToProcess, slice0.
  destruct (Z.eqb_spec limit 0) as [->|_]; [lia|].
  destruct (Z.ltb_spec limit 0) as [Hneg|_]; [lia|].
  now rewrite firstn_min_length.
Qed.

Lemma NoDup_prefix {A : Type} (n : nat) (l : list A) :
  NoDup l -> NoDup (firstn n l).
Proof.
  intros Hl. rewrite <- (firstn_skipn n l) in Hl.
  now apply NoDup_app_remove_r in Hl.
Qed.

Lemma NoDup_map_filter {A B : Type} (f : A -> B) (g : A -> bool) (l : list A) :
  NoDup (map f l) -> NoDup (map f (filter g l)).
Proof.
  induction l as [|a l IH]; cbn; intros Hl; [constructor|].
  inversion Hl as [|x xs Hnotin Hrest]; subst.
  destruct (g a); cbn; auto.
  constructor; auto.
  intros Hin. apply Hnotin.
  apply in_map_iff in Hin as (y & Hy & Hiny).
  apply filter_In in Hiny as [Hiny _].
  apply in_map_iff. eauto.
Qed.

Lemma filter_all {A : Type} (g : A -> bool) (l : list A) :
  Forall (fun x => g x = true) l -> filter g l = l.
Proof.
  induction 1 as [|x l Hx _ IH]; cbn; [reflexivity|]. now rewrite Hx, IH.
Qed.

(** C6, amended. For a list of N files and a limit L of at least 1 (the limit
    0 is falsy and selects every file),
    [processFiles] makes exactly min(N, L) stage attempts, on the paths of the
    first min(N, L) files in input order. Its commit attempts are exactly
    those of the files whose stage resolved, each right after that stage call
    and naming that path; so there are min(N, L) of them when no stage
    rejects, and no path is committed twice when the paths of the list are
    distinct. An empty list makes no call at all. *)
Theorem processFiles_commits_limited_prefix
  (w : World) (h : list Event) (files : list ChangedFile) (limit : Z) :
  (1 <= limit)%Z ->
  let selected := firstn (Nat.min (length files) (Z.to_nat limit)) files in
  let t := trace_of w h (processFiles (Some files) limit) in
  length selected = Nat.min (length files) (Z.to_nat limit)
  /\ stages t = map path selected
  /\ commits_of t = resolved_stages t
  /\ count_calls is_commit t = length (commits_of t)
  /\ (Forall (fun s => snd s = true) (stage_results t) ->
      commits_of t = map path selected)
  /\ (NoDup (map path files) -> NoDup (commits_of t))
  /\ (files = [] -> cmds t = []).
Proof.
  intros Hl selected t.
  assert (Hlen : length selected = Nat.min (length files) (Z.to_nat limit)).
  { unfold selected. rewrite length_firstn. lia. }
  assert (Hshape : stages t = map path selected
                   /\ commits_of t = resolved_stages t
                   /\ length (filter is_commit (cmds t)) = length (commits_of t)).
  { destruct files as [|f fs]; [now cbn|].
    destruct (processFiles_run w h (f :: fs) limit) as (ts & Ht & Hb & _);
      [discriminate|].
    fold t in Ht. rewrite filesToProcess_prefix in Hb by exact Hl.
    fold selected in Hb. apply batch_stages in Hb as (H1 & H2 & H3).
    rewrite Ht. auto. }
  destruct Hshape as (Hst & Hco & Hn).
  repeat split; auto.
  - intros Hall. rewrite Hco, <- Hst. unfold resolved_stages, stages.
    now rewrite filter_all.
  - intros Hnd. rewrite Hco. unfold resolved_stages.
    apply NoDup_map_filter. fold (stages t). rewrite Hst.
    unfold selected. rewrite <- firstn_map. now apply NoDup_prefix.
  - intros ->. reflexivity.
Qed.

(** C7. [processFiles] resolves whatever the outcomes of the stage and commit
    calls. On a non-empty list its trace is, after the heading, one attempt
    per selected file, in order: the stage call, then (the stage resolved) the
    commit call; a rejection of either ends that file's attempt alone with a
    [spinner_fail] report carrying its message, and the attempts of the files
    after it follow all the same. A batch can hold both: with three files and
    the stage of the second rejecting, the first and third are committed. *)
Theorem processFiles_failures_do_not_abort
  (w : World) (h : list Event) (files : Files) (limit : Z) :
  settles w h (processFiles files limit) = Resolved tt
  /\ match files with
     | Some (f :: fs) =>
         exists ts,
           trace_of w h (processFiles files limit) =
           Said (console_log
                   ("Processing "
                    ++ string_of_nat (length (filesToProcess (f :: fs) limit))
                    ++ " files...")) :: ts
           /\ batch (filesToProcess (f :: fs) limit) ts
     | _ =>
         trace_of w h (processFiles files limit) =
         [Said (console_log "No files to process.")]
     end
  /\ (let mixed := trace_of (stage_rejects ["f2"]) []
                     (processFiles (Some (some_files 3)) 5) in
      stage_results mixed = [("f1", true); ("f2", false); ("f3", true)]
      /\ commits_of mixed = ["f1"; "f3"]).
Proof.
  split; [|split].
  - destruct files as [[|f fs]|]; try reflexivity.
    destruct (processFiles_run w h (f :: fs) limit) as (ts & _ & _ & Hres);
      [discriminate | exact Hres].
  - destruct files as [[|f fs]|]; try reflexivity.
    destruct (processFiles_run w h (f :: fs) limit) as (ts & Ht & Hb & _);
      [discriminate | eauto].
  - vm_compute. split; reflexivity.
Qed.

(* ================================================================== *)
(** ** Which rejections escape *)
(* ================================================================== *)

Lemma escapes_bind {A B : Type} (P : Cmd -> Prop) (p : Prog A) (f : A -> Prog B) :
  (forall a last, escapes P last (f a)) ->
  forall last, escapes P last p -> escapes P last (bind p f).
Proof.
  intros Hf. induction p as [a|e|c k IH|o k IH|ms k IH|k IH|k IH|c k IH|ev k IH];
    intros last Hp; cbn in *; auto.
Qed.

Lemma escapes_try_catch {A : Type} (P : Cmd -> Prop) (p : Prog A) handler :
  (forall e last, escapes P last (handler e)) ->
  forall last, escapes P last (try_catch p handler).
Proof.
  intros Hh. induction p as [a|e|c k IH|o k IH|ms k IH|k IH|k IH|c k IH|ev k IH];
    intros last; cbn; auto.
Qed.

Lemma escapes_call (P : Cmd -> Prop) (c : Cmd) last :
  P c -> escapes P last (call c).
Proof. intros Hc [a|e]; cbn; eauto. Qed.

Lemma escapes_for_of {A : Type} (P : Cmd -> Prop) (xs : list A) body :
  (forall x last, escapes P last (body x)) ->
  forall last, escapes P last (for_of xs body).
Proof.
  intros Hb. induction xs as [|x xs IH]; intros last; cbn; [exact I|].
  apply escapes_bind; auto.
Qed.

(** A rejected run ends on the rejected call whose message it carries. *)
Lemma escapes_run {A : Type} (P : Cmd -> Prop) (w : World) (p : Prog A) :
  forall h last e,
    escapes P last p ->
    settles w h p = Rejected e ->
    (trace_of w h p = [] /\ exists c, last = Some (c, e) /\ P c)
    \/ exists pre c,
        trace_of w h p = pre ++ [Called c (Rejected e)] /\ P c.
Proof.
  unfold trace_of, settles.
  induction p as [a|e0|c k IH|o k IH|ms k IH|k IH|k IH|c k IH|ev k IH]; intros h last e Hp Hrej;
    cbn in *.
  - discriminate.
  - injection Hrej as ->. left. split; [reflexivity | exact Hp].
  - specialize (Hp (answer w h c)).
    specialize (IH (answer w h c) (h ++ [Called c (answer w h c)]) _ e Hp).
    destruct (run w _ (k _)) as [t res]. cbn in *.
    right. destruct (IH Hrej) as [[-> (c' & Hlast & Hc')] | (pre & c' & -> & Hc')].
    + destruct (answer w h c) as [a|e1]; [discriminate|].
      injection Hlast as <- <-. exists [], c. auto.
    + exists (Called c (answer w h c) :: pre), c'. auto.
  - specialize (IH (h ++ [Said o]) None e Hp).
    destruct (run w _ k) as [t res]. cbn in *.
    right. destruct (IH Hrej) as [[_ (c' & Hlast & _)] | (pre & c' & -> & Hc')];
      [discriminate|].
    exists (Said o :: pre), c'. auto.
  - specialize (IH (h ++ [Waited ms]) None e Hp).
    destruct (run w _ k) as [t res]. cbn in *.
    right. destruct (IH Hrej) as [[_ (c' & Hlast & _)] | (pre & c' & -> & Hc')];
      [discriminate|].
    exists (Waited ms :: pre), c'. auto.
  - specialize (Hp (clock w h)).
    specialize (IH (clock w h) (h ++ [Clock (clock w h)]) None e Hp).
    destruct (run w _ (k _)) as [t res]. cbn in *.
    right. destruct (IH Hrej) as [[_ (c' & Hlast & _)] | (pre & c' & -> & Hc')];
      [discriminate|].
    exists (Clock (clock w h) :: pre), c'. auto.
  - destruct (IH _ h None e (Hp _) Hrej) as [[_ (c' & Hlast & _)] | Hend];
      [discriminate | right; exact Hend].
  - destruct (IH _ h None e (Hp _) Hrej) as [[_ (c' & Hlast & _)] | Hend];
      [discriminate | right; exact Hend].
  - specialize (IH (h ++ [ev]) (rejection ev) e Hp).
    destruct (run w _ k) as [t res]. cbn in *.
    right. destruct (IH Hrej) as [[-> (c' & Hlast & Hc')] | (pre & c' & -> & Hc')].
    + destruct ev as [c r|o|ms|iso]; try discriminate.
      destruct r as [a|e1]; [discriminate|].
      cbn in Hlast. injection Hlast as <- <-. exists [], c. auto.
    + exists (ev :: pre), c'. auto.
Qed.

Ltac escaping :=
  repeat match goal with
    | |- escapes _ _ (try_catch _ _) => apply escapes_try_catch
    | |- escapes _ _ (bind _ _) => apply escapes_bind
    | |- escapes _ _ (for_of _ _) => apply escapes_for_of
    | |- escapes _ _ (call _) => apply escapes_call
    | |- escapes _ _ (if ?b then _ else _) => destruct b
    | |- escapes _ _ (match ?x with _ => _ end) => destruct x
    | |- forall _, _ => intro
    | |- True => exact I
    | |- _ = _ => reflexivity
    | |- exists c, Some _ = Some (c, _) /\ _ =>
        eexists; split; reflexivity
    | |- escapes _ _ _ => progress cbn
    end.

Lemma pushChanges_escapes last :
  escapes (fun c => is_unguarded c = true) last pushChanges.
Proof.
  unfold pushChanges, pushFailed, noUpstream, afterRemotes, linkUpstream,
    promptForRemote, syncWithRemote, syncFailed, reconcile, remoteAhead,
    abbrev_ref_HEAD, push_u.
  escaping.
Qed.

Lemma checkGitStatus_escapes (P : Cmd -> Prop) last :
  escapes P last checkGitStatus.
Proof. unfold checkGitStatus. escaping. Qed.

Lemma processFiles_escapes (P : Cmd -> Prop) files limit last :
  escapes P last (processFiles files limit).
Proof.
  unfold processFiles. destruct files as [[|f fs]|]; try (cbn; exact I).
  apply escapes_bind; [|cbn; exact I]. intros _ last'.
  apply escapes_for_of. intros x last''. unfold processFile, now. escaping.
Qed.

Lemma getBranches_escapes (P : Cmd -> Prop) last : escapes P last getBranches.
Proof. unfold getBranches. escaping. Qed.

Lemma checkoutBranch_escapes (P : Cmd -> Prop) branchName last :
  escapes P last (checkoutBranch branchName).
Proof. unfold checkoutBranch. escaping. Qed.

Lemma remove_nth_In {A : Type} (l : list A) :
  forall i x, In x (remove_nth i l) -> In x l.
Proof.
  unfold remove_nth.
  induction l as [|a l IH]; intros i x Hin.
  - destruct i; cbn in Hin; contradiction.
  - destruct i as [|i]; cbn in Hin.
    + right. exact Hin.
    + destruct Hin as [->|Hin]; [left; reflexivity | right; eauto].
Qed.

Lemma Forall_remove_nth {A : Type} (Q : A -> Prop) (i : nat) (l : list A) :
  Forall Q l -> Forall Q (remove_nth i l).
Proof.
  rewrite !Forall_forall. intros Hl x Hin. eauto using remove_nth_In.
Qed.

(** A callback run by the interval lets escape what it lets escape on its
    own. *)
Lemma sync_escapes {B : Type} (P : Cmd -> Prop)
  (loop : list (InFlight B) -> Prog (option B)) :
  (forall l last, Forall (in_flight_escapes P) l -> escapes P last (loop l)) ->
  forall p others last,
    Forall (in_flight_escapes P) others ->
    escapes P last p ->
    escapes P last (sync loop others p).
Proof.
  intros Hloop.
  induction p as [a|e|c k IH|o k IH|ms k IH|k IH|k IH|c k IH|ev k IH];
    intros others last Hothers Hp; cbn in *; auto.
  - destruct a; [exact I | auto].
  - intros r. apply Hloop. apply Forall_app. split; [exact Hothers|].
    constructor; [|constructor].
    unfold in_flight_escapes. cbn. specialize (Hp r).
    destruct r; exact Hp.
Qed.

Lemma intervalLoop_escapes {B : Type} (P : Cmd -> Prop) (ms : Z)
  (callback : Prog (option B)) :
  escapes P None callback ->
  forall steps inflight last,
    Forall (in_flight_escapes P) inflight ->
    escapes P last (intervalLoop steps ms callback inflight).
Proof.
  intros Hcb.
  induction steps as [|n IH]; intros inflight last Hin; cbn; [exact I|].
  intros i. destruct (nth_error inflight i) as [[settled rest]|] eqn:Hnth; cbn.
  - apply sync_escapes; [intros; apply IH; assumption | |].
    + now apply Forall_remove_nth.
    + apply nth_error_In in Hnth.
      rewrite Forall_forall in Hin. exact (Hin _ Hnth).
  - apply sync_escapes; [intros; apply IH; assumption | exact Hin | exact Hcb].
Qed.

Lemma poll_escapes (P : Cmd -> Prop) threshold last :
  escapes P last (poll threshold).
Proof.
  unfold poll. apply escapes_bind; [|apply checkGitStatus_escapes].
  intros files last'. escaping.
Qed.

Lemma waitForThreshold_escapes (P : Cmd -> Prop) ticks threshold last :
  escapes P last (waitForThreshold ticks threshold).
Proof.
  unfold waitForThreshold.
  apply escapes_bind; [|cbn; exact I]. intros _ last'.
  apply intervalLoop_escapes; [apply poll_escapes | constructor].
Qed.

Lemma escapes_weaken {A : Type} (P Q : Cmd -> Prop) (p : Prog A) :
  (forall c, P c -> Q c) ->
  forall last, escapes P last p -> escapes Q last p.
Proof.
  intros HPQ. induction p as [a|e|c k IH|o k IH|ms k IH|k IH|k IH|c k IH|ev k IH];
    intros last Hp; cbn in *; auto.
  destruct Hp as (c & Hlast & Hc). eauto.
Qed.

Lemma is_unguarded_in_main_incl (c : Cmd) :
  is_unguarded c = true -> is_unguarded_in_main c = true.
Proof. destruct c; cbn; congruence. Qed.

Lemma commitAndPush_escapes files last :
  escapes (fun c => is_unguarded_in_main c = true) last (commitAndPush files).
Proof.
  unfold commitAndPush.
  apply escapes_bind; [|apply processFiles_escapes]. intros _ last1.
  apply escapes_bind; [intros; cbn; exact I|].
  apply (escapes_weaken (fun c => is_unguarded c = true));
    [exact is_unguarded_in_main_incl | apply pushChanges_escapes].
Qed.

Lemma cycle_escapes ticks last :
  escapes (fun c => is_unguarded_in_main c = true) last (cycle ticks).
Proof.
  unfold cycle.
  apply escapes_bind; [|apply checkGitStatus_escapes].
  intros [fs|] last1; [|cbn; exact I].
  destruct (5 <=? length fs)%nat.
  - apply escapes_bind; [intros; exact I | apply commitAndPush_escapes].
  - apply escapes_bind; [|cbn; exact I]. intros _ last2.
    apply escapes_bind.
    + intros [files|] last3; [|exact I].
      apply escapes_bind; [intros; exact I | apply commitAndPush_escapes].
    + apply waitForThreshold_escapes.
Qed.

Lemma mainLoop_escapes turns ticks :
  forall last,
    escapes (fun c => is_unguarded_in_main c = true) last (mainLoop turns ticks).
Proof.
  induction turns as [|n IH]; intros last; cbn; [exact I|].
  apply escapes_bind; [|apply cycle_escapes].
  intros [[]|] last1; [apply IH | exact I].
Qed.

Lemma selectBranch_escapes last :
  escapes (fun c => is_unguarded_in_main c = true) last selectBranch.
Proof.
  unfold selectBranch.
  apply escapes_bind; [|apply getBranches_escapes].
  intros [bs|] last1; [|exact I].
  apply escapes_bind; [|apply escapes_call; reflexivity].
  intros answers last2.
  destruct (negb (answers =? current bs));
    [apply checkoutBranch_escapes | cbn; exact I].
Qed.

Lemma main_escapes turns ticks last :
  escapes (fun c => is_unguarded_in_main c = true) last (main turns ticks).
Proof.
  unfold main.
  apply escapes_bind; [|cbn; exact I]. intros _ last1.
  apply escapes_bind; [|cbn; exact I]. intros _ last2.
  apply escapes_bind; [|apply selectBranch_escapes]. intros _ last3.
  apply mainLoop_escapes.
Qed.

(** X1. A rejection of [pushChanges] is always that of a call awaited outside
    every [try]: the run ends on a rejected [getRemotes], remote-URL prompt or
    branch read, and the promise carries its message. The rejection of a
    push, a pull or an add-remote never leaves the function. *)
Theorem pushChanges_rejects_only_at_unguarded_call
  (w : World) (h : list Event) (e : string) :
  settles w h pushChanges = Rejected e ->
  exists pre c,
    trace_of w h pushChanges = pre ++ [Called c (Rejected e)]
    /\ is_unguarded c = true.
Proof.
  intros Hrej.
  destruct (escapes_run _ w pushChanges h None e (pushChanges_escapes None) Hrej)
    as [[_ (c & Hlast & _)] | Hend]; [discriminate | exact Hend].
Qed.

Lemma pushChanges_rejects_only_at_unguarded_call_witness :
  let e := "fatal: unable to read config file" in
  settles remotes_unreadable [] pushChanges = Rejected e
  /\ exists pre c,
      trace_of remotes_unreadable [] pushChanges = pre ++ [Called c (Rejected e)]
      /\ is_unguarded c = true.
Proof.
  cbv zeta. split; [reflexivity|].
  exact (pushChanges_rejects_only_at_unguarded_call remotes_unreadable []
           "fatal: unable to read config file" eq_refl).
Defined.

(** X2. Whatever the number of turns followed, [main] stops with a rejection
    only on a rejected branch prompt, [getRemotes], remote-URL prompt or
    branch read: the run ends on that call. No failure of a status query, of
    the listing of branches, of a checkout, stage, commit, push or pull ends
    the loop. *)
Theorem main_rejects_only_at_unguarded_call
  (w : World) (h : list Event) (turns ticks : nat) (e : string) :
  settles w h (main turns ticks) = Rejected e ->
  exists pre c,
    trace_of w h (main turns ticks) = pre ++ [Called c (Rejected e)]
    /\ is_unguarded_in_main c = true.
Proof.
  intros Hrej.
  destruct (escapes_run _ w (main turns ticks) h None e
              (main_escapes turns ticks None) Hrej)
    as [[_ (c & Hlast & _)] | Hend]; [discriminate | exact Hend].
Qed.

Lemma main_rejects_only_at_unguarded_call_witness :
  let e := "User force closed the prompt" in
  settles selection_aborted [] (main 3 2) = Rejected e
  /\ exists pre c,
      trace_of selection_aborted [] (main 3 2) = pre ++ [Called c (Rejected e)]
      /\ is_unguarded_in_main c = true.
Proof.
  cbv zeta. split; [reflexivity|].
  exact (main_rejects_only_at_unguarded_call selection_aborted [] 3 2
           "User force closed the prompt" eq_refl).
Defined.

(* ================================================================== *)
(** ** The threshold waiter *)
(* ================================================================== *)

(** A status read never rejects, issues only the two queries, and shows as
    one entry of the timeline: its own result. *)
Lemma checkGitStatus_run (w : World) (h : list Event) :
  exists files,
    settles w h checkGitStatus = Resolved files
    /\ Forall (fun c => is_query c = true) (cmds (trace_of w h checkGitStatus))
    /\ forall t0 rest,
        timeline t0 (trace_of w h checkGitStatus ++ rest)
        = (t0, files) :: timeline t0 rest.
Proof.
  unfold trace_of, settles, checkGitStatus. cbn.
  destruct (answer w _ git_checkIsRepo) as [[|]|e1]; cbn.
  - destruct (answer w _ git_status) as [fs|e2]; cbn.
    + exists (Some fs). repeat split; auto.
    + exists None. repeat split; auto.
  - exists None. repeat split; auto.
  - exists None. repeat split; auto.
Qed.

(** The interval goes on after a callback that did not resolve the promise:
    the rest of the run is that of an idle interval with less fuel. *)
Ltac interval_goes_on w IH threshold t0 :=
  match goal with
  | |- context [@run ?A w ?h' (@intervalLoop ?B ?n ?ms ?cb ?fl)] =>
      let Ht := fresh "Ht" in
      let Hres := fresh "Hres" in
      let t := fresh "t" in
      let res := fresh "res" in
      pose proof (IH n ltac:(lia) h' (t0 + 5000)%Z) as [Ht Hres];
      unfold trace_of, settles in Ht, Hres;
      change (@run (option Files) w h' (intervalLoop n 5000 (poll threshold) []))
        with (@run A w h' (@intervalLoop B n ms cb fl)) in Ht, Hres;
      destruct (@run A w h' (@intervalLoop B n ms cb fl)) as [t res];
      cbn in Ht, Hres |- *;
      split; [now rewrite Ht|];
      destruct res as [[?files|]|?e]; [| |exact Hres];
      [ let earlier := fresh "earlier" in
        let He := fresh "He" in
        let Hall := fresh "Hall" in
        let Hlast := fresh "Hlast" in
        destruct Hres as (earlier & He & Hall & Hlast);
        eexists (_ :: earlier); rewrite He;
        split; [reflexivity|]; split; [|exact Hlast];
        constructor; [unfold below; cbn; lia | exact Hall]
      | let Hall := fresh "Hall" in
        let Hlen := fresh "Hlen" in
        destruct Hres as [Hall Hlen];
        split; [constructor; [unfold below; cbn; lia | exact Hall] | lia] ]
  end.

(** The callback resolves the promise: its read is the last of the run. *)
Ltac interval_resolves :=
  cbn; split; [reflexivity|];
  exists []; repeat split; auto; unfold below; cbn; lia.

(** When every call settles in time, the interval runs its callbacks one
    after the other: each firing, 5000 ms after the one before, is followed
    by the status read of its callback and by nothing else until the next. *)
Lemma intervalLoop_in_time (w : World) (threshold : Z) :
  settles_in_time w ->
  forall steps h t0,
    let reads := timeline t0 (trace_of w h
                   (intervalLoop steps 5000 (poll threshold) [])) in
    map fst reads = every_5s t0 (length reads)
    /\ match settles w h (intervalLoop steps 5000 (poll threshold) []) with
       | Resolved (Some files) =>
           exists earlier,
             map snd reads = earlier ++ [files]
             /\ Forall (below threshold) earlier
             /\ ~ below threshold files
       | Resolved None =>
           Forall (below threshold) (map snd reads)
           /\ steps <= 3 * length reads + 2
       | Rejected _ => False
       end.
Proof.
  intros Hnext steps.
  induction steps as [steps IH] using lt_wf_ind. intros h t0.
  unfold trace_of, settles.
  destruct steps as [|n1]; [cbn; repeat split; auto; lia|].
  cbn. rewrite Hnext. cbn.
  remember (intervalLoop n1 5000 (poll threshold)) as loop eqn:Hloop.
  unfold poll, checkGitStatus. cbn.
  destruct (answer w (h ++ [Waited 5000]) git_checkIsRepo) as [[|]|e1];
    subst loop; (destruct n1 as [|n2]; [cbn; repeat split; auto; lia|]);
    cbn; rewrite Hnext; cbn;
    remember (intervalLoop n2 5000 (poll threshold)) as loop eqn:Hloop; cbn.
  - (* the directory is a repository: the status is read *)
    destruct (answer w _ git_status) as [fs|e2];
      subst loop; (destruct n2 as [|n3]; [cbn; repeat split; auto; lia|]);
      cbn; rewrite Hnext; cbn.
    + destruct (Z.geb_spec (Z.of_nat (length fs)) threshold) as [Hr|Hr];
        [interval_resolves | cbn; interval_goes_on w IH threshold t0].
    + destruct (Z.geb_spec 0 threshold) as [Hr|Hr];
        [interval_resolves | cbn; interval_goes_on w IH threshold t0].
  - subst loop. destruct (Z.geb_spec 0 threshold) as [Hr|Hr];
      [interval_resolves | cbn; interval_goes_on w IH threshold t0].
  - subst loop. destruct (Z.geb_spec 0 threshold) as [Hr|Hr];
      [interval_resolves | cbn; interval_goes_on w IH threshold t0].
Qed.




(* ================================================================== *)
(** ** The main loop *)
(* ================================================================== *)


(** What the interval may issue is what its callback may issue. *)
Lemma sync_issues_only {B : Type} (P : Cmd -> Prop)
  (loop : list (InFlight B) -> Prog (option B)) :
  (forall l, Forall (in_flight_issues P) l -> issues_only P (loop l)) ->
  forall p others,
    Forall (in_flight_issues P) others ->
    issues_only P p ->
    issues_only P (sync loop others p).
Proof.
  intros Hloop.
  induction p as [a|e|c k IH|o k IH|ms k IH|k IH|k IH|c k IH|ev k IH];
    intros others Hothers Hp; cbn in *; auto.
  - destruct a; [exact I | auto].
  - destruct Hp as [Hc Hk]. split; [exact Hc|]. intros r.
    apply Hloop. apply Forall_app. split; [exact Hothers|].
    constructor; [|constructor]. split; cbn; auto.
  - destruct Hp as [Hc Hk]. split; auto.
  - destruct Hp as [Hc Hk]. split; auto.
Qed.

Lemma intervalLoop_issues_only {B : Type} (P : Cmd -> Prop) (ms : Z)
  (callback : Prog (option B)) :
  issues_only P callback ->
  forall steps inflight,
    Forall (in_flight_issues P) inflight ->
    issues_only P (intervalLoop steps ms callback inflight).
Proof.
  intros Hcb.
  induction steps as [|n IH]; intros inflight Hin; cbn; [exact I|].
  intros i. cbn.
  destruct (nth_error _ i) as [[settled rest]|] eqn:Hnth; cbn.
  - apply nth_error_In in Hnth.
    rewrite Forall_forall in Hin. destruct (Hin _ Hnth) as [Hev Hrest].
    split; [exact Hev|].
    apply sync_issues_only; [exact IH | | exact Hrest].
    apply Forall_remove_nth. now apply Forall_forall.
  - apply sync_issues_only; [exact IH | exact Hin | exact Hcb].
Qed.










(** Neither the loop nor anything it calls selects a branch. *)
Lemma checkGitStatus_selects_nothing :
  issues_only (fun c => is_selection c = false) checkGitStatus.
Proof. unfold checkGitStatus. issues. Qed.

Lemma processFiles_selects_nothing (files : Files) (limit : Z) :
  issues_only (fun c => is_selection c = false) (processFiles files limit).
Proof.
  unfold processFiles. destruct files as [[|f fs]|]; try (cbn; exact I).
  apply issues_only_bind; [cbn; exact I|]. intros _.
  apply issues_only_for_of. intros x. unfold processFile, now. issues.
Qed.

Lemma pushChanges_selects_nothing :
  issues_only (fun c => is_selection c = false) pushChanges.
Proof.
  unfold pushChanges, pushFailed, noUpstream, afterRemotes, linkUpstream,
    promptForRemote, syncWithRemote, syncFailed, reconcile, remoteAhead,
    abbrev_ref_HEAD, push_u.
  issues.
Qed.

Lemma commitAndPush_selects_nothing (files : Files) :
  issues_only (fun c => is_selection c = false) (commitAndPush files).
Proof.
  unfold commitAndPush.
  apply issues_only_bind; [apply processFiles_selects_nothing|]. intros _.
  apply issues_only_bind; [apply pushChanges_selects_nothing|]. intros _.
  cbn. exact I.
Qed.

Lemma waitForThreshold_selects_nothing (ticks : nat) (threshold : Z) :
  issues_only (fun c => is_selection c = false)
              (waitForThreshold ticks threshold).
Proof.
  unfold waitForThreshold.
  apply issues_only_bind; [cbn; exact I|]. intros _.
  apply intervalLoop_issues_only; [|constructor].
  unfold poll. apply issues_only_bind; [apply checkGitStatus_selects_nothing|].
  intros files. issues.
Qed.

Lemma cycle_selects_nothing (ticks : nat) :
  issues_only (fun c => is_selection c = false) (cycle ticks).
Proof.
  unfold cycle.
  apply issues_only_bind; [apply checkGitStatus_selects_nothing|].
  intros [fs|]; [|cbn; exact I].
  destruct (5 <=? length fs)%nat.
  - apply issues_only_bind; [apply commitAndPush_selects_nothing|].
    intros _. exact I.
  - apply issues_only_bind; [cbn; exact I|]. intros _.
    apply issues_only_bind.
    + apply waitForThreshold_selects_nothing.
    + intros [files|]; [|exact I].
      apply issues_only_bind; [apply commitAndPush_selects_nothing|].
      intros _. exact I.
Qed.

Lemma mainLoop_selects_nothing (turns ticks : nat) :
  issues_only (fun c => is_selection c = false) (mainLoop turns ticks).
Proof.
  induction turns as [|n IH]; cbn; [exact I|].
  apply issues_only_bind; [apply cycle_selects_nothing|].
  intros [[]|]; [exact IH | exact I].
Qed.

(** C10. When the listing of the local branches rejects at startup, [main]
    reports it and goes straight into the loop: its run is the two banner
    lines, the rejected listing, the error report, and then the run of the
    loop; and no branch prompt and no checkout is issued anywhere in it. *)
Theorem unlisted_branches_skip_selection
  (w : World) (h : list Event) (turns ticks : nat) (e : string) :
  let banner :=
    [Said (console_log "Running Deep (Auto Git Pusher) in Continuous Mode...");
     Said (console_log "Press Ctrl+C to stop.")] in
  let startup :=
    banner ++ [Called git_branchLocal (Rejected e);
               Said (console_error ("Error getting branches: " ++ e))] in
  answer w (h ++ banner) git_branchLocal = Rejected e ->
  run w h (main turns ticks)
  = (let '(t, res) := run w (h ++ startup) (mainLoop turns ticks) in
     (startup ++ t, res))
  /\ Forall (fun c => is_selection c = false)
            (cmds (trace_of w h (main turns ticks))).
Proof.
  intros banner startup Hlist. subst banner startup.
  assert (Hrun : run w h (main turns ticks)
                 = (let '(t, res) :=
                      run w (h ++ [Said (console_log "Running Deep (Auto Git Pusher) in Continuous Mode...");
                                   Said (console_log "Press Ctrl+C to stop.");
                                   Called git_branchLocal (Rejected e);
                                   Said (console_error ("Error getting branches: " ++ e))])
                          (mainLoop turns ticks) in
                    ([Said (console_log "Running Deep (Auto Git Pusher) in Continuous Mode...");
                      Said (console_log "Press Ctrl+C to stop.");
                      Called git_branchLocal (Rejected e);
                      Said (console_error ("Error getting branches: " ++ e))] ++ t, res))).
  { unfold main, selectBranch, getBranches. cbn in *.
    rewrite <- (app_assoc h) in *. cbn [app] in *.
    rewrite Hlist. cbn. rewrite <- !app_assoc. cbn [app].
    destruct (run w _ (mainLoop turns ticks)) as [t res]. reflexivity. }
  split; [exact Hrun|].
  unfold trace_of. rewrite Hrun.
  pose proof (issues_only_run _ w _ (mainLoop_selects_nothing turns ticks)
                (h ++ [Said (console_log "Running Deep (Auto Git Pusher) in Continuous Mode...");
                       Said (console_log "Press Ctrl+C to stop.");
                       Called git_branchLocal (Rejected e);
                       Said (console_error ("Error getting branches: " ++ e))]))
    as Hloop.
  unfold trace_of in Hloop.
  destruct (run w _ (mainLoop turns ticks)) as [t res]. cbn in *.
  constructor; [reflexivity | exact Hloop].
Qed.

(* ================================================================== *)
(** ** Concrete scenarios *)
(* ================================================================== *)

(** The test of line 57 is case-sensitive: the lower-case wording is not
    recognised, and the failure is reported as fatal with no further call. *)
Lemma lowercase_destination_message_is_fatal :
  let e := "fatal: no configured push destination" in
  includes e "no configured push destination" = true
  /\ run (plain_push_rejects e) [] pushChanges
     = ([Said (ora_start "Pushing changes...");
         Called git_push (Rejected e);
         Said (spinner_fail ("Failed to push changes: " ++ e))],
        Resolved tt)
  /\ ~ In git_getRemotes (cmds (trace_of (plain_push_rejects e) [] pushChanges)).
Proof.
  cbv zeta. split; [reflexivity|]. split; [reflexivity|].
  vm_compute. intros [H|[]]. discriminate H.
Qed.

(** The hypothesis of C1 holds in the world where the plain push is
    rejected. *)
Lemma pushChanges_classifies_push_failure_witness :
  let e := "Updates were rejected" in
  let w := plain_push_rejects e in
  answer w ([] ++ [Said (ora_start "Pushing changes...")]) git_push = Rejected e
  /\ exists rest,
      trace_of w [] pushChanges
      = [Said (ora_start "Pushing changes..."); Called git_push (Rejected e)]
          ++ rest
      /\ remoteAhead_shape rest
      /\ settles w [] pushChanges = Resolved tt.
Proof.
  cbv zeta. split; [reflexivity|].
  exact (pushChanges_classifies_push_failure
           (plain_push_rejects "Updates were rejected") []
           "Updates were rejected" eq_refl).
Defined.

(** A rejected plain push is answered by a rebase pull at once: no pull with
    unrelated histories allowed comes before it. *)
Lemma rejected_plain_push_rebases_at_once :
  let e := "Updates were rejected" in
  includes e "rejected" = true
  /\ cmds (trace_of (plain_push_rejects e) [] pushChanges)
     = [git_push; abbrev_ref_HEAD; git_pull "origin" "main" rebase_true; git_push]
  /\ run (plain_push_rejects e) [] pushChanges
     = ([Said (ora_start "Pushing changes...");
         Called git_push (Rejected e);
         Said (spinner_text "Remote is ahead. Pulling changes...");
         Called abbrev_ref_HEAD (Resolved "main");
         Called (git_pull "origin" "main" rebase_true) (Resolved tt);
         Called git_push (Rejected e);
         auto_sync_failed],
        Resolved tt).
Proof. cbv zeta. repeat split. Qed.

(** The hypotheses of C2 hold in the world where the upstream-setting push
    is rejected. *)
Lemma rejected_upstream_push_merges_before_rebase_witness :
  let e := "Updates were rejected" in
  let w := upstream_push_rejects e in
  let h1 := [] ++ [Said (ora_start "Syncing with remote...")] in
  (answer w h1 abbrev_ref_HEAD = Resolved "main"
   /\ truthy "main" = true
   /\ answer w (h1 ++ [Called abbrev_ref_HEAD (Resolved "main")]) (push_u "main")
      = Rejected e
   /\ includes e "rejected" = true)
  /\ exists rest,
      trace_of w [] syncWithRemote
      = [Said (ora_start "Syncing with remote...");
         Called abbrev_ref_HEAD (Resolved "main");
         Called (push_u "main") (Rejected e)] ++ rest
      /\ reconcile_shape "main" rest
      /\ settles w [] syncWithRemote = Resolved tt.
Proof.
  cbv zeta. split; [repeat split|].
  exact (rejected_upstream_push_merges_before_rebase
           (upstream_push_rejects "Updates were rejected") []
           "main" "Updates were rejected" eq_refl eq_refl eq_refl eq_refl).
Defined.

(** The hypotheses of C3 hold in the world with an origin remote and no
    upstream. *)
Lemma origin_without_upstream_is_linked_without_prompt_witness :
  let e := "fatal: The current branch main has no upstream branch." in
  let w := upstream_push_rejects "Updates were rejected" in
  let remotes := [{| name := "origin" |}] in
  let h1 := [] ++ [Said (ora_start "Pushing changes...")] in
  let h2 := (h1 ++ [Called git_push (Rejected e)])
              ++ [Said (spinner_fail "No remote/upstream configured.")] in
  let opening :=
    [Said (ora_start "Pushing changes...");
     Called git_push (Rejected e);
     Said (spinner_fail "No remote/upstream configured.");
     Called git_getRemotes (Resolved remotes);
     Said (spinner_text ("Remote " ++ dquote ++ "origin" ++ dquote
                         ++ " found. Attempting to link upstream..."))] in
  (answer w h1 git_push = Rejected e
   /\ isNoUpstream e = true
   /\ answer w h2 git_getRemotes = Resolved remotes
   /\ findOrigin remotes = Some {| name := "origin" |})
  /\ Forall (fun c => is_prompt c = false) (cmds (trace_of w [] pushChanges))
  /\ exists read rest,
      trace_of w [] pushChanges = opening ++ Called abbrev_ref_HEAD read :: rest
      /\ forall b, read = Resolved b ->
         exists pushed rest1,
           rest = Called (push_u b) pushed :: rest1
           /\ (pushed = Resolved tt ->
               rest1 = [Said (spinner_succeed "Upstream linked and changes pushed!")]
               /\ settles w [] pushChanges = Resolved tt)
           /\ forall linkErr, pushed = Rejected linkErr ->
              exists read2 rest2,
                rest1 = Said (spinner_fail ("Failed to link upstream: " ++ linkErr))
                        :: Said (ora_start "Syncing with remote...")
                        :: Called abbrev_ref_HEAD read2 :: rest2
                /\ forall b2, read2 = Resolved b2 ->
                   exists pushed2 rest3,
                     rest2 = Called (push_u b2) pushed2 :: rest3.
Proof.
  cbv zeta. split; [repeat split|].
  exact (origin_without_upstream_is_linked_without_prompt
           (upstream_push_rejects "Updates were rejected") []
           "fatal: The current branch main has no upstream branch."
           [{| name := "origin" |}] {| name := "origin" |}
           eq_refl eq_refl eq_refl eq_refl).
Defined.

(** The hypotheses of C4 hold in the world with no remote where the operator
    gives a URL: one add-remote, one push with -u, and nothing else after
    the prompt. *)
Lemma no_remote_prompt_then_one_addRemote_one_push_witness :
  let e := "fatal: No configured push destination." in
  let url := "https://example.com/repo.git" in
  let w := no_remote url in
  let h1 := [] ++ [Said (ora_start "Pushing changes...")] in
  let h2 := (h1 ++ [Called git_push (Rejected e)])
              ++ [Said (spinner_fail "No remote/upstream configured.")] in
  let not_connected :=
    Said (console_log (newline ++ "It looks like this repository is not connected to a remote server.")) in
  let h3 := (h2 ++ [Called git_getRemotes (Resolved [])]) ++ [not_connected] in
  (answer w h1 git_push = Rejected e
   /\ isNoUpstream e = true
   /\ answer w h2 git_getRemotes = Resolved []
   /\ findOrigin [] = None
   /\ answer w h3 (prompt_input "remoteUrl" remoteUrl_message) = Resolved url
   /\ url <> "")
  /\ trace_of w [] pushChanges
     = [Said (ora_start "Pushing changes...");
        Called git_push (Rejected e);
        Said (spinner_fail "No remote/upstream configured.");
        Called git_getRemotes (Resolved []);
        not_connected;
        Called (prompt_input "remoteUrl" remoteUrl_message) (Resolved url);
        Called (git_addRemote "origin" url) (Resolved tt);
        Said (ora_start "Syncing with remote...");
        Called abbrev_ref_HEAD (Resolved "main");
        Called (push_u "main") (Resolved tt);
        Said (spinner_succeed "Remote configured and changes pushed!")]
  /\ count_calls is_addRemote (trace_of w [] pushChanges) = 1
  /\ count_calls is_push_u (trace_of w [] pushChanges) = 1
  /\ settles w [] pushChanges = Resolved tt.
Proof.
  cbv zeta. split; [repeat split; discriminate|].
  destruct (no_remote_prompt_then_one_addRemote_one_push
              (no_remote "https://example.com/repo.git") []
              "fatal: No configured push destination."
              "https://example.com/repo.git" []
              eq_refl eq_refl eq_refl eq_refl eq_refl) as [_ Hurl].
  destruct Hurl as (Hone & _ & Hok); [discriminate|].
  destruct (Hok "main" eq_refl eq_refl) as (Htrace & Hu & Hres).
  split; [exact Htrace|]. split; [exact Hone|]. split; [exact Hu | exact Hres].
Defined.

(** C5, at the failing input: the first push rejects with "no upstream
    branch" and the list of remotes cannot be read. The promise of
    [pushChanges] rejects with the error of [getRemotes]: nothing is reported
    for it and the error reaches the caller. *)
Lemma pushChanges_rejects_when_remotes_unreadable :
  run remotes_unreadable [] pushChanges
  = ([Said (ora_start "Pushing changes...");
      Called git_push
        (Rejected "fatal: The current branch main has no upstream branch.");
      Said (spinner_fail "No remote/upstream configured.");
      Called git_getRemotes (Rejected "fatal: unable to read config file")],
     Rejected "fatal: unable to read config file").
Proof. reflexivity. Qed.

(** A limit of 0 is falsy: every file is processed. *)
Lemma zero_limit_commits_every_file :
  let files := some_files 2 in
  let t := trace_of calm_world [] (processFiles (Some files) 0) in
  count_calls is_commit t = 2
  /\ Z.of_nat (count_calls is_commit t) <> Z.min (Z.of_nat (length files)) 0.
Proof. cbv zeta. split; [reflexivity | vm_compute; discriminate]. Qed.

(** C6 at seven files and limit 5, the stage of the second file rejecting. *)
Lemma processFiles_commits_limited_prefix_witness :
  let files := some_files 7 in
  let t := trace_of (stage_rejects ["f2"]) [] (processFiles (Some files) 5) in
  (1 <= 5)%Z
  /\ stages t = ["f1"; "f2"; "f3"; "f4"; "f5"]
  /\ commits_of t = ["f1"; "f3"; "f4"; "f5"]
  /\ count_calls is_commit t = 4.
Proof.
  cbv zeta. split; [lia|].
  destruct (processFiles_commits_limited_prefix
              (stage_rejects ["f2"]) [] (some_files 7) 5 ltac:(lia))
    as (_ & Hstages & Hcommits & Hcount & _).
  split; [exact Hstages|]. split; [rewrite Hcommits; reflexivity|].
  rewrite Hcount, Hcommits. reflexivity.
Defined.


(** The hypothesis of C10 holds where the branches cannot be listed. *)
Lemma unlisted_branches_skip_selection_witness :
  let e := "fatal: not a git repository" in
  let w := branches_unreadable in
  let banner :=
    [Said (console_log "Running Deep (Auto Git Pusher) in Continuous Mode...");
     Said (console_log "Press Ctrl+C to stop.")] in
  let startup :=
    banner ++ [Called git_branchLocal (Rejected e);
               Said (console_error ("Error getting branches: " ++ e))] in
  answer w ([] ++ banner) git_branchLocal = Rejected e
  /\ run w [] (main 2 1)
     = (let '(t, res) := run w ([] ++ startup) (mainLoop 2 1) in
        (startup ++ t, res))
  /\ Forall (fun c => is_selection c = false)
            (cmds (trace_of w [] (main 2 1))).
Proof.
  cbv zeta. split; [reflexivity|].
  exact (unlisted_branches_skip_selection branches_unreadable [] 2 1
           "fatal: not a git repository" eq_refl).
Defined.

(* ================================================================== *)
(** ** The status reader and the branch selector *)
(* ================================================================== *)

(** X3. [checkGitStatus] never rejects. It gives [null] exactly when the
    directory is not reported to be a repository (the check resolves with
    false or rejects) or the status query rejects; otherwise it gives the
    file list of the status query. When the check does not resolve with
    true, the status is not queried at all. *)
Theorem checkGitStatus_null_exactly_on_failure (w : World) (h : list Event) :
  let checked := h ++ [Called git_checkIsRepo (Resolved true)] in
  exists files,
    settles w h checkGitStatus = Resolved files
    /\ (files = None <->
        answer w h git_checkIsRepo <> Resolved true
        \/ exists e, answer w checked git_status = Rejected e)
    /\ (forall fs, files = Some fs -> answer w checked git_status = Resolved fs)
    /\ (answer w h git_checkIsRepo <> Resolved true ->
        cmds (trace_of w h checkGitStatus) = [git_checkIsRepo]).
Proof.
  unfold trace_of, settles, checkGitStatus. cbn.
  destruct (answer w h git_checkIsRepo) as [[|]|e1]; cbn.
  - destruct (answer w _ git_status) as [fs|e2]; cbn.
    + exists (Some fs). split; [reflexivity|]. split; [|split].
      * split; [discriminate|]. intros [H|[e H]]; congruence.
      * intros fs' H. congruence.
      * congruence.
    + exists None. split; [reflexivity|]. split; [|split].
      * split; eauto.
      * discriminate.
      * congruence.
  - exists None. split; [reflexivity|]. split; [|split].
    + split; [left; discriminate | reflexivity].
    + discriminate.
    + reflexivity.
  - exists None. split; [reflexivity|]. split; [|split].
    + split; [left; discriminate | reflexivity].
    + discriminate.
    + reflexivity.
Qed.

(** X4. With the branches listed and the prompt answered, the branch
    selection resolves whatever the checkout does, and it issues a checkout
    only when the answer differs from the current branch: then exactly one,
    of the branch chosen. *)
Theorem selectBranch_switches_only_on_a_different_choice
  (w : World) (h : list Event) (bs : BranchSummary) (choice : string) :
  answer w h git_branchLocal = Resolved bs ->
  answer w (h ++ [Called git_branchLocal (Resolved bs)])
    (prompt_list "branch" "Select the branch to work on:" (all bs) (current bs))
  = Resolved choice ->
  settles w h selectBranch = Resolved tt
  /\ filter is_checkout (cmds (trace_of w h selectBranch))
     = (if choice =? current bs then [] else [git_checkout choice]).
Proof.
  intros Hlist Hpick.
  unfold trace_of, settles, selectBranch, getBranches. cbn in *.
  rewrite Hlist. cbn. rewrite Hpick. cbn.
  destruct (choice =? current bs)%string; cbn; [split; reflexivity|].
  unfold checkoutBranch. cbn.
  destruct (answer w _ (git_checkout _)) as [[]|e]; cbn; split; reflexivity.
Qed.

Lemma selectBranch_switches_only_on_a_different_choice_witness :
  let w := operator_picks "dev" false in
  let bs := {| all := ["main"; "dev"]; current := "main" |} in
  (answer w [] git_branchLocal = Resolved bs
   /\ answer w ([] ++ [Called git_branchLocal (Resolved bs)])
        (prompt_list "branch" "Select the branch to work on:" (all bs) (current bs))
      = Resolved "dev")
  /\ settles w [] selectBranch = Resolved tt
  /\ filter is_checkout (cmds (trace_of w [] selectBranch)) = [git_checkout "dev"].
Proof.
  cbv zeta. split; [split; reflexivity|].
  exact (selectBranch_switches_only_on_a_different_choice
           (operator_picks "dev" false) []
           {| all := ["main"; "dev"]; current := "main" |} "dev"
           eq_refl eq_refl).
Defined.

(* ================================================================== *)
(** ** What each function issues, and how often *)
(* ================================================================== *)

Lemma processFiles_calls (files : Files) (limit : Z) :
  issues_only (fun c => is_batch_call c = true) (processFiles files limit).
Proof.
  unfold processFiles. destruct files as [[|f fs]|]; try (cbn; exact I).
  apply issues_only_bind; [cbn; exact I|]. intros _.
  apply issues_only_for_of. intros x. unfold processFile, now. issues.
Qed.

Lemma pushChanges_calls :
  issues_only (fun c => is_push_call c = true) pushChanges.
Proof.
  unfold pushChanges, pushFailed, noUpstream, afterRemotes, linkUpstream,
    promptForRemote, syncWithRemote, syncFailed, reconcile, remoteAhead,
    abbrev_ref_HEAD, push_u.
  issues; cbn; rewrite ?String.eqb_refl; reflexivity.
Qed.

(** X5. [processFiles] issues stage and commit calls and nothing else: it
    never pushes, pulls, queries the status or asks the operator. *)
Theorem processFiles_only_stages_and_commits
  (w : World) (h : list Event) (files : Files) (limit : Z) :
  Forall (fun c => is_batch_call c = true)
         (cmds (trace_of w h (processFiles files limit))).
Proof. apply issues_only_run, processFiles_calls. Qed.

(** X6. Every call of [pushChanges] is one of: the plain push; a push to
    origin with the single option -u; a pull from origin with either
    unrelated histories allowed or rebase; the listing of remotes; the adding
    of a remote named origin; the read of the current branch name; the
    remote-URL prompt. So it never stages, commits or checks out, and never
    pushes to, pulls from or adds a remote under another name than origin. *)
Theorem pushChanges_only_talks_to_origin (w : World) (h : list Event) :
  Forall (fun c => is_push_call c = true) (cmds (trace_of w h pushChanges)).
Proof. apply issues_only_run, pushChanges_calls. Qed.

Lemma at_most_run {A : Type} (f : Cmd -> bool) (w : World) (p : Prog A) :
  forall n h, at_most f n p -> count_calls f (trace_of w h p) <= n.
Proof.
  unfold count_calls, trace_of.
  induction p as [a|e|c k IH|o k IH|ms k IH|k IH|k IH|c k IH|ev k IH]; intros n h Hp; cbn in *.
  - lia.
  - lia.
  - specialize (IH (answer w h c)).
    destruct (f c) eqn:Hc.
    + destruct n as [|m]; [contradiction|].
      specialize (IH m (h ++ [Called c (answer w h c)]) (Hp _)).
      destruct (run w _ (k _)) as [t res]. cbn in *. rewrite Hc. cbn. lia.
    + specialize (IH n (h ++ [Called c (answer w h c)]) (Hp _)).
      destruct (run w _ (k _)) as [t res]. cbn in *. now rewrite Hc.
  - specialize (IH n (h ++ [Said o]) Hp).
    destruct (run w _ k) as [t res]. exact IH.
  - specialize (IH n (h ++ [Waited ms]) Hp).
    destruct (run w _ k) as [t res]. exact IH.
  - specialize (IH _ n (h ++ [Clock (clock w h)]) (Hp (clock w h))).
    destruct (run w _ (k _)) as [t res]. exact IH.
  - exact (IH _ n h (Hp _)).
  - exact (IH _ n h (Hp _)).
  - destruct ev as [c r|o|ms|iso]; cbn in *.
    + destruct (f c) eqn:Hc.
      * destruct n as [|m]; [contradiction|].
        specialize (IH m (h ++ [Called c r]) Hp).
        destruct (run w _ k) as [t res]. cbn in *. rewrite Hc. cbn. lia.
      * specialize (IH n (h ++ [Called c r]) Hp).
        destruct (run w _ k) as [t res]. cbn in *. now rewrite Hc.
    + specialize (IH n (h ++ [Said o]) Hp).
      destruct (run w _ k) as [t res]. exact IH.
    + specialize (IH n (h ++ [Waited ms]) Hp).
      destruct (run w _ k) as [t res]. exact IH.
    + specialize (IH n (h ++ [Clock iso]) Hp).
      destruct (run w _ k) as [t res]. exact IH.
Qed.

Ltac counting :=
  repeat match goal with
    | |- forall _, _ => intro
    | |- True => exact I
    | |- at_most _ _ _ => progress cbn
    | |- context [match ?x with Resolved _ => _ | Rejected _ => _ end] =>
        destruct x
    | |- context [match ?x with Some _ => _ | None => _ end] => destruct x
    | |- context [if ?b then _ else _] => destruct b
    end.

Lemma pushChanges_pulls : at_most is_pull 2 pushChanges.
Proof.
  unfold pushChanges, pushFailed, noUpstream, afterRemotes, linkUpstream,
    promptForRemote, syncWithRemote, syncFailed, reconcile, remoteAhead,
    abbrev_ref_HEAD, push_u.
  counting.
Qed.

Lemma pushChanges_plain_pushes : at_most is_plain_push 2 pushChanges.
Proof.
  unfold pushChanges, pushFailed, noUpstream, afterRemotes, linkUpstream,
    promptForRemote, syncWithRemote, syncFailed, reconcile, remoteAhead,
    abbrev_ref_HEAD, push_u.
  counting.
Qed.

Lemma pushChanges_upstream_pushes : at_most is_push_u 4 pushChanges.
Proof.
  unfold pushChanges, pushFailed, noUpstream, afterRemotes, linkUpstream,
    promptForRemote, syncWithRemote, syncFailed, reconcile, remoteAhead,
    abbrev_ref_HEAD, push_u.
  counting.
Qed.

Lemma pushChanges_all_calls : at_most any_call 11 pushChanges.
Proof.
  unfold pushChanges, pushFailed, noUpstream, afterRemotes, linkUpstream,
    promptForRemote, syncWithRemote, syncFailed, reconcile, remoteAhead,
    abbrev_ref_HEAD, push_u.
  counting.
Qed.

(** X7. One call of [pushChanges] is bounded in what it attempts, whatever
    the answers: at most two pulls, at most two plain pushes, at most four
    pushes with -u, and at most eleven external calls in all. *)
Theorem pushChanges_attempts_are_bounded (w : World) (h : list Event) :
  count_calls is_pull (trace_of w h pushChanges) <= 2
  /\ count_calls is_plain_push (trace_of w h pushChanges) <= 2
  /\ count_calls is_push_u (trace_of w h pushChanges) <= 4
  /\ length (cmds (trace_of w h pushChanges)) <= 11.
Proof.
  split; [apply at_most_run, pushChanges_pulls|].
  split; [apply at_most_run, pushChanges_plain_pushes|].
  split; [apply at_most_run, pushChanges_upstream_pushes|].
  pose proof (at_most_run any_call w pushChanges 11 h pushChanges_all_calls) as H.
  unfold count_calls in H. rewrite filter_all in H; [exact H|].
  apply Forall_forall. reflexivity.
Qed.

(* ================================================================== *)
(** ** Edge cases of the waiter, the batch and the sync *)
(* ================================================================== *)

(** X8. With a threshold of 0 or less, and every status read settling
    before the interval fires again, the wait ends with the callback of the
    first firing of the interval, 5000 ms after the start, whatever its
    status read gives: the promise resolves with the result of that read,
    [null] included, and no other read is made. *)
Theorem waitForThreshold_nonpositive_threshold_resolves_at_first_poll
  (w : World) (h : list Event) (ticks : nat) (threshold : Z) :
  settles_in_time w ->
  (threshold <= 0)%Z ->
  let started :=
    (h ++ [Said (ora_start ("Waiting for " ++ string_of_Z threshold
                            ++ " unstaged files..."))])
      ++ [Waited 5000] in
  exists files,
    settles w started checkGitStatus = Resolved files
    /\ settles w h (waitForThreshold (3 + ticks) threshold)
       = Resolved (Some files)
    /\ timeline 0 (trace_of w h (waitForThreshold (3 + ticks) threshold))
       = [(5000%Z, files)].
Proof.
  intros Hnext Hth started. subst started.
  unfold trace_of, settles, waitForThreshold.
  remember (ora_start ("Waiting for " ++ string_of_Z threshold
                       ++ " unstaged files...")) as label eqn:Hlabel.
  clear Hlabel. cbn. rewrite Hnext. cbn.
  remember (intervalLoop (S (S ticks)) 5000 (poll threshold)) as loop eqn:Hloop.
  unfold poll, checkGitStatus. cbn.
  assert (Hzero : (0 >=? threshold)%Z = true) by (apply Z.geb_le; lia).
  destruct (answer w ((h ++ [Said label]) ++ [Waited 5000]) git_checkIsRepo)
    as [[|]|e1]; subst loop; cbn; rewrite Hnext; cbn.
  - remember (intervalLoop (S ticks) 5000 (poll threshold)) as loop eqn:Hloop.
    cbn.
    destruct (answer w _ git_status) as [fs|e2];
      subst loop; cbn; rewrite Hnext; cbn.
    + assert (Hfs : (Z.of_nat (length fs) >=? threshold)%Z = true)
        by (apply Z.geb_le; lia).
      rewrite Hfs. cbn. eauto.
    + rewrite Hzero. cbn. eauto.
  - rewrite Hzero. cbn. eauto.
  - rewrite Hzero. cbn. eauto.
Qed.

Lemma waitForThreshold_nonpositive_threshold_resolves_at_first_poll_witness :
  (settles_in_time not_a_repo /\ (0 <= 0)%Z)
  /\ settles not_a_repo [] (waitForThreshold 3 0) = Resolved (Some None)
  /\ timeline 0 (trace_of not_a_repo [] (waitForThreshold 3 0)) = [(5000%Z, None)].
Proof.
  assert (Hin : settles_in_time not_a_repo) by (intros h; reflexivity).
  split; [split; [exact Hin | lia]|].
  destruct (waitForThreshold_nonpositive_threshold_resolves_at_first_poll
              not_a_repo [] 0 0 Hin ltac:(lia)) as (files & Hread & Hres & Htl).
  assert (Hnone : files = None).
  { vm_compute in Hread. now injection Hread as <-. }
  subst files. split; [exact Hres | exact Htl].
Defined.

Lemma processFiles_stages (w : World) (h : list Event) (fs : list ChangedFile)
  (limit : Z) :
  let t := trace_of w h (processFiles (Some fs) limit) in
  stages t = map path (filesToProcess fs limit)
  /\ length (filter is_commit (cmds t)) = length (resolved_stages t).
Proof.
  intros t. subst t.
  destruct fs as [|f fs].
  - unfold filesToProcess, slice0. cbn.
    destruct (limit =? 0)%Z; [split; reflexivity|].
    destruct (limit <? 0)%Z; rewrite firstn_nil; split; reflexivity.
  - destruct (processFiles_run w h (f :: fs) limit) as (ts & Ht & Hb & _);
      [discriminate|].
    apply batch_stages in Hb as (H1 & H2 & H3).
    rewrite Ht. unfold stages, resolved_stages in *. cbn.
    split; [exact H1 | now rewrite H3, H2].
Qed.

Lemma filesToProcess_is_prefix (fs : list ChangedFile) (limit : Z) :
  exists n, filesToProcess fs limit = firstn n fs
    /\ n <= length fs
    /\ n = if (limit =? 0)%Z then length fs
           else if (limit <? 0)%Z then Z.to_nat (Z.of_nat (length fs) + limit)
                else Nat.min (length fs) (Z.to_nat limit).
Proof.
  unfold filesToProcess, slice0.
  destruct (Z.eqb_spec limit 0) as [->|Hnz].
  - exists (length fs). rewrite firstn_all. auto.
  - destruct (Z.ltb_spec limit 0) as [Hneg|Hpos].
    + exists (Z.to_nat (Z.of_nat (length fs) + limit)).
      split; [f_equal; lia|]. split; [lia | reflexivity].
    + exists (Nat.min (length fs) (Z.to_nat limit)).
      rewrite firstn_min_length. split; [reflexivity|]. split; [lia | reflexivity].
Qed.

(** X9. For every limit, positive, zero or negative, the files that
    [processFiles] stages are a prefix of the list, in order, one stage call
    each: all of them for the limit 0, the first min(N, L) for a positive L,
    and all but the last -L (none when that exceeds N) for a negative L. *)
Theorem processFiles_stages_a_prefix_for_every_limit
  (w : World) (h : list Event) (fs : list ChangedFile) (limit : Z) :
  exists n rest,
    stages (trace_of w h (processFiles (Some fs) limit)) = map path (firstn n fs)
    /\ fs = firstn n fs ++ rest
    /\ n = if (limit =? 0)%Z then length fs
           else if (limit <? 0)%Z then Z.to_nat (Z.of_nat (length fs) + limit)
                else Nat.min (length fs) (Z.to_nat limit).
Proof.
  destruct (filesToProcess_is_prefix fs limit) as (n & Hsel & _ & Hn).
  exists n, (skipn n fs).
  destruct (processFiles_stages w h fs limit) as [Hst _].
  rewrite Hst, Hsel. split; [reflexivity|].
  split; [symmetry; apply firstn_skipn | exact Hn].
Qed.

(** X10. In the sync with the remote, a failure whose message is not one of
    the diverged kind, be it of the upstream-setting push or of the branch
    read before it, is reported as "Failed to push: <message>" and ends the
    sync: no pull is attempted, and the promise resolves. *)
Theorem syncWithRemote_reports_other_failures_and_stops
  (w : World) (h : list Event) (e : string) :
  let h1 := h ++ [Said (ora_start "Syncing with remote...")] in
  isDiverged e = false ->
  (answer w h1 abbrev_ref_HEAD = Rejected e
   \/ exists b,
       answer w h1 abbrev_ref_HEAD = Resolved b
       /\ answer w (h1 ++ [Called abbrev_ref_HEAD (Resolved b)]) (push_u b)
          = Rejected e) ->
  settles w h syncWithRemote = Resolved tt
  /\ count_calls is_pull (trace_of w h syncWithRemote) = 0
  /\ exists pre c,
      trace_of w h syncWithRemote
      = pre ++ [Called c (Rejected e);
                Said (spinner_fail ("Failed to push: " ++ e))].
Proof.
  intros h1 Hother Hfail. subst h1.
  unfold trace_of, settles, syncWithRemote, abbrev_ref_HEAD, push_u in *.
  cbn in *.
  destruct Hfail as [Hread | (b & Hread & Hpush)].
  - rewrite Hread. cbn. unfold syncFailed. rewrite Hother. cbn.
    split; [reflexivity|]. split; [reflexivity|].
    exists [Said (ora_start "Syncing with remote...")], 
           (git_revparse ["--abbrev-ref"; "HEAD"]). reflexivity.
  - rewrite Hread. cbn. rewrite Hpush. cbn.
    unfold syncFailed. rewrite Hother. cbn.
    split; [reflexivity|]. split; [reflexivity|].
    exists [Said (ora_start "Syncing with remote...");
            Called (git_revparse ["--abbrev-ref"; "HEAD"]) (Resolved b)],
           (git_push_to "origin" b ["-u"]). reflexivity.
Qed.

Lemma syncWithRemote_reports_other_failures_and_stops_witness :
  let e := "remote: Permission to repo denied" in
  let w := upstream_push_rejects e in
  let h1 := [] ++ [Said (ora_start "Syncing with remote...")] in
  (isDiverged e = false
   /\ answer w h1 abbrev_ref_HEAD = Resolved "main"
   /\ answer w (h1 ++ [Called abbrev_ref_HEAD (Resolved "main")]) (push_u "main")
      = Rejected e)
  /\ settles w [] syncWithRemote = Resolved tt
  /\ count_calls is_pull (trace_of w [] syncWithRemote) = 0
  /\ exists pre c,
      trace_of w [] syncWithRemote
      = pre ++ [Called c (Rejected e);
                Said (spinner_fail ("Failed to push: " ++ e))].
Proof.
  cbv zeta. split; [repeat split|].
  exact (syncWithRemote_reports_other_failures_and_stops
           (upstream_push_rejects "remote: Permission to repo denied") []
           "remote: Permission to repo denied" eq_refl
           (or_intror (ex_intro _ "main" (conj eq_refl eq_refl)))).
Defined.

(* ================================================================== *)
(** ** One turn of the loop *)
(* ================================================================== *)

Lemma no_batch_calls (t : list Event) :
  Forall (fun c => is_batch_call c = false) (cmds t) ->
  stage_results t = [] /\ filter is_commit (cmds t) = [].
Proof.
  induction t as [|ev t IH]; [now cbn|].
  destruct ev as [c r|o|ms|iso]; cbn; auto.
  intros Hall. inversion Hall as [|c' cs Hc Hrest]; subst.
  destruct (IH Hrest) as [H1 H2].
  destruct c; cbn in *; try discriminate; auto.
Qed.

Lemma is_push_call_not_batch (c : Cmd) :
  is_push_call c = true -> is_batch_call c = false.
Proof. destruct c; cbn; congruence. Qed.

Lemma is_query_not_batch (c : Cmd) :
  is_query c = true -> is_batch_call c = false.
Proof. destruct c; cbn; congruence. Qed.

Lemma is_batch_not_plain_push (c : Cmd) :
  is_batch_call c = true -> is_plain_push c = false.
Proof. destruct c; cbn; congruence. Qed.

Lemma is_query_not_plain_push (c : Cmd) :
  is_query c = true -> is_plain_push c = false.
Proof. destruct c; cbn; congruence. Qed.

Lemma processFiles_resolves (w : World) (h : list Event) (files : Files)
  (limit : Z) :
  settles w h (processFiles files limit) = Resolved tt.
Proof.
  destruct (settles w h (processFiles files limit)) as [[]|e] eqn:Hres;
    [reflexivity|].
  destruct (escapes_run (fun _ => False) w _ h None e
              (processFiles_escapes _ files limit None) Hres)
    as [[_ (c & Hlast & _)] | (pre & c & _ & [])].
  discriminate.
Qed.

Lemma pushChanges_starts (w : World) (h : list Event) :
  exists pushed rest,
    trace_of w h pushChanges
    = Said (ora_start "Pushing changes...") :: Called git_push pushed :: rest.
Proof.
  unfold trace_of, pushChanges. cbn.
  destruct (run w _ _) as [t res]. cbn. eauto.
Qed.

(** The commit attempts of a batch are its own, whatever follows it, and
    nothing before a batch that stages and commits nothing adds to them. *)
Lemma batch_commits_app (fs : list ChangedFile) (ts : list Event) :
  batch fs ts ->
  forall rest, commits_of (ts ++ rest) = commits_of ts ++ commits_of rest.
Proof.
  induction 1 as [|f fs t ts Hf Hfs IH]; intros rest; [reflexivity|].
  destruct (file_attempt_stage f t Hf) as (ok & _ & Hrest).
  destruct (Hrest (ts ++ rest)) as (Hc & _).
  destruct (Hrest ts) as (Hc' & _).
  rewrite <- app_assoc, Hc, Hc', IH. now rewrite app_assoc.
Qed.

Lemma commits_of_skip (a b : list Event) :
  Forall (fun c => is_batch_call c = false) (cmds a) ->
  commits_of (a ++ b) = commits_of b.
Proof.
  induction a as [|ev a IH]; intros Hall; [reflexivity|].
  destruct ev as [c r|o|ms|iso]; cbn in Hall |- *; auto.
  inversion Hall as [|c' cs Hc Hrest]; subst.
  destruct c; cbn in Hc; try discriminate; cbn; auto.
Qed.

Lemma processFiles_commits (w : World) (h : list Event)
  (fs : list ChangedFile) (limit : Z) :
  let t := trace_of w h (processFiles (Some fs) limit) in
  commits_of t = resolved_stages t
  /\ forall rest, commits_of (t ++ rest) = commits_of t ++ commits_of rest.
Proof.
  intros t. subst t.
  destruct fs as [|f fs]; [split; reflexivity|].
  destruct (processFiles_run w h (f :: fs) limit) as (ts & Ht & Hb & _);
    [discriminate|].
  rewrite Ht. pose proof (batch_commits_app _ _ Hb) as Happ.
  apply batch_stages in Hb as (_ & H2 & _).
  split; [exact H2 | exact Happ].
Qed.

(** The batch of five and the push that follows it (lines 49-51, 59-61). *)
Lemma commitAndPush_run (w : World) (h : list Event) (fs : list ChangedFile) :
  exists batch_part pushed after,
    trace_of w h (commitAndPush (Some fs))
    = batch_part ++ Called git_push pushed :: after
    /\ stages batch_part = map path (firstn 5 fs)
    /\ count_calls is_commit batch_part = length (resolved_stages batch_part)
    /\ count_calls is_plain_push batch_part = 0
    /\ Forall (fun c => is_push_call c = true) (cmds after)
    /\ commits_of batch_part = resolved_stages batch_part.
Proof.
  unfold trace_of, commitAndPush. rewrite run_bind.
  pose proof (processFiles_resolves w h (Some fs) 5) as Hres.
  pose proof (processFiles_stages w h fs 5) as [Hst Hco].
  pose proof (processFiles_commits w h fs 5) as [Hcs Hcapp].
  pose proof (issues_only_run _ w _ (processFiles_calls (Some fs) 5) h) as Hcalls.
  unfold trace_of, settles in Hres, Hst, Hco, Hcs, Hcapp, Hcalls.
  destruct (run w h (processFiles (Some fs) 5)) as [tb res]. cbn in *.
  subst res. rewrite run_bind.
  destruct (pushChanges_starts w (h ++ tb)) as (pushed & rest & Hstart).
  pose proof (issues_only_run _ w _ pushChanges_calls (h ++ tb)) as Hpush.
  unfold trace_of in Hstart, Hpush.
  destruct (run w (h ++ tb) pushChanges) as [tp resp]. cbn in *. subst tp.
  cbn in Hpush. inversion Hpush as [|c cs _ Hrest]; subst.
  exists (tb ++ [Said (ora_start "Pushing changes...")]), pushed.
  assert (Hbatch :
    stages (tb ++ [Said (ora_start "Pushing changes...")]) = map path (firstn 5 fs)
    /\ count_calls is_commit (tb ++ [Said (ora_start "Pushing changes...")])
       = length (resolved_stages (tb ++ [Said (ora_start "Pushing changes...")]))
    /\ count_calls is_plain_push (tb ++ [Said (ora_start "Pushing changes...")]) = 0
    /\ commits_of (tb ++ [Said (ora_start "Pushing changes...")])
       = resolved_stages (tb ++ [Said (ora_start "Pushing changes...")])).
  { rewrite Hcapp. unfold stages, resolved_stages, count_calls in *.
    rewrite stage_results_app, cmds_app. cbn. rewrite !app_nil_r.
    rewrite Hst, Hco.
    repeat split; try reflexivity; try exact Hcs.
    rewrite filter_none; [reflexivity|].
    eapply Forall_impl; [|exact Hcalls]. exact is_batch_not_plain_push. }
  destruct Hbatch as (Hb1 & Hb2 & Hb3 & Hb4).
  destruct resp as [[]|e]; cbn.
  - exists (rest ++ [Said (console_log (newline ++ "Waiting for next batch..."))]).
    rewrite <- !app_assoc. cbn. repeat split; auto.
    rewrite cmds_app, app_nil_r. exact Hrest.
  - exists rest. rewrite <- !app_assoc. cbn. repeat split; auto.
Qed.

(** X11. A turn of the loop that reads five or more changed files stages the
    first five of them, in order, and commits exactly those whose stage
    resolved, each right after its stage call and under its own message;
    only then, and whatever failed in the batch, comes the plain push; after
    it nothing is issued but the calls of [pushChanges], so nothing more is
    staged or committed in that turn. *)
Theorem cycle_stages_first_five_then_pushes
  (w : World) (h : list Event) (ticks : nat) (fs : list ChangedFile) :
  settles w h checkGitStatus = Resolved (Some fs) ->
  5 <= length fs ->
  exists before pushed after,
    trace_of w h (cycle ticks) = before ++ Called git_push pushed :: after
    /\ stages before = map path (firstn 5 fs)
    /\ commits_of before = resolved_stages before
    /\ count_calls is_commit before = length (commits_of before)
    /\ count_calls is_plain_push before = 0
    /\ Forall (fun c => is_push_call c = true) (cmds after).
Proof.
  intros Hread Hfive.
  destruct (checkGitStatus_run w h) as (files & Hres & Hq & _).
  rewrite Hread in Hres. injection Hres as <-.
  unfold trace_of, settles, cycle in *. rewrite run_bind.
  destruct (run w h checkGitStatus) as [t0 res]. cbn in Hread, Hq. subst res.
  apply Nat.leb_le in Hfive. rewrite Hfive. rewrite run_bind.
  destruct (commitAndPush_run w (h ++ t0) fs)
    as (tb & pushed & after & Ht & H1 & H2 & H3 & H4 & H5).
  unfold trace_of in Ht.
  destruct (run w (h ++ t0) (commitAndPush (Some fs))) as [tc resc].
  cbn in Ht. subst tc.
  assert (Hq' : stage_results t0 = [] /\ filter is_commit (cmds t0) = []).
  { apply no_batch_calls. eapply Forall_impl; [|exact Hq].
    exact is_query_not_batch. }
  destruct Hq' as [Hs0 Hc0].
  assert (Hp0 : filter is_plain_push (cmds t0) = []).
  { apply filter_none. eapply Forall_impl; [|exact Hq].
    exact is_query_not_plain_push. }
  assert (Hk0 : commits_of (t0 ++ tb) = commits_of tb).
  { apply commits_of_skip. eapply Forall_impl; [|exact Hq].
    exact is_query_not_batch. }
  exists (t0 ++ tb), pushed.
  exists (match resc with Resolved _ => after | Rejected _ => after end).
  rewrite Hk0, H5.
  unfold stages, resolved_stages, count_calls in *.
  rewrite stage_results_app, cmds_app, !filter_app, Hs0, Hc0, Hp0. cbn.
  destruct resc as [[]|e]; cbn; rewrite ?app_nil_r, <- ?app_assoc;
    repeat split; auto.
Qed.

Lemma cycle_stages_first_five_then_pushes_witness :
  let w := seven_changed ["f2"] in
  (settles w [] checkGitStatus = Resolved (Some (some_files 7))
   /\ 5 <= length (some_files 7))
  /\ exists before pushed after,
      trace_of w [] (cycle 1) = before ++ Called git_push pushed :: after
      /\ stages before = ["f1"; "f2"; "f3"; "f4"; "f5"]
      /\ commits_of before = resolved_stages before
      /\ count_calls is_commit before = length (commits_of before)
      /\ count_calls is_plain_push before = 0
      /\ Forall (fun c => is_push_call c = true) (cmds after).
Proof.
  cbv zeta. split; [split; [reflexivity | cbn; lia]|].
  exact (cycle_stages_first_five_then_pushes (seven_changed ["f2"]) [] 1
           (some_files 7) eq_refl ltac:(cbn; lia)).
Defined.

Lemma issues_only_weaken {A : Type} (P Q : Cmd -> Prop) (p : Prog A) :
  (forall c, P c -> Q c) -> issues_only P p -> issues_only Q p.
Proof.
  intros HPQ.
  induction p as [a|e|c k IH|o k IH|ms k IH|k IH|k IH|c k IH|ev k IH];
    cbn; auto.
  - intros [Hc Hk]. split; auto.
  - intros [Hc Hk]. split; auto.
  - intros [Hc Hk]. split; auto. destruct ev; auto.
Qed.

Lemma checkGitStatus_queries :
  issues_only (fun c => is_query c = true) checkGitStatus.
Proof. unfold checkGitStatus. issues. Qed.

Lemma intervalLoop_queries (ticks : nat) (threshold : Z) :
  issues_only (fun c => is_query c = true)
              (intervalLoop ticks 5000 (poll threshold) []).
Proof.
  apply intervalLoop_issues_only; [|constructor].
  unfold poll. apply issues_only_bind; [apply checkGitStatus_queries|].
  intros files. issues.
Qed.

Lemma timeline_reads_from_any_start (t : list Event) :
  forall t0 t1, map snd (timeline t0 t) = map snd (timeline t1 t).
Proof.
  induction t as [|ev t IH]; intros t0 t1; [reflexivity|].
  destruct ev as [c r|o|ms|iso]; cbn; try apply IH.
  destruct c; cbn; try apply IH; destruct r as [a|e]; cbn;
    try (f_equal; apply IH).
  destruct a; cbn; [apply IH | f_equal; apply IH].
Qed.

Lemma timeline_reads_app (a b : list Event) :
  forall t0,
    map snd (timeline t0 (a ++ b))
    = map snd (timeline t0 a) ++ map snd (timeline t0 b).
Proof.
  induction a as [|ev a IH]; intros t0; [reflexivity|].
  destruct ev as [c r|o|ms|iso]; cbn; try apply IH.
  - destruct c; cbn; try apply IH; destruct r as [x|e]; cbn;
      try (f_equal; apply IH).
    destruct x; cbn; [apply IH | f_equal; apply IH].
  - rewrite IH. f_equal. apply timeline_reads_from_any_start.
Qed.

Lemma no_queries (t : list Event) :
  Forall (fun c => is_query c = false) (cmds t) ->
  forall t0, timeline t0 t = [].
Proof.
  induction t as [|ev t IH]; intros Hall t0; [reflexivity|].
  destruct ev as [c r|o|ms|iso]; cbn in *; auto.
  inversion Hall as [|c' cs Hc Hrest]; subst.
  destruct c; cbn in *; try discriminate; auto.
Qed.

Lemma commitAndPush_makes_no_query (w : World) (h : list Event) (files : Files) :
  Forall (fun c => is_query c = false)
         (cmds (trace_of w h (commitAndPush files))).
Proof.
  apply issues_only_run. unfold commitAndPush.
  apply issues_only_bind.
  - apply (issues_only_weaken (fun c => is_batch_call c = true));
      [|apply processFiles_calls].
    intros c; destruct c; cbn; congruence.
  - intros _. apply issues_only_bind; [|intros; cbn; exact I].
    apply (issues_only_weaken (fun c => is_push_call c = true));
      [|apply pushChanges_calls].
    intros c; destruct c; cbn; congruence.
Qed.

(** X12. A turn of the loop that reads fewer than five changed files stages
    nothing from that read. Provided every status read settles before the
    interval fires again: while the wait is pending the turn has issued
    status queries only, each read below five, and the interval has gone on
    through all the events followed (at most three per read); once the wait
    is over, the read that ended it counted at least five files, every read
    before it counted fewer, and the files staged in the turn are the first
    five of that last read, in order. *)
Theorem cycle_below_five_commits_the_polled_list
  (w : World) (h : list Event) (ticks : nat) (fs : list ChangedFile) :
  settles_in_time w ->
  settles w h checkGitStatus = Resolved (Some fs) ->
  length fs < 5 ->
  let t := trace_of w h (cycle ticks) in
  let reads := map snd (timeline 0 t) in
  match settles w h (cycle ticks) with
  | Resolved None =>
      Forall (fun c => is_query c = true) (cmds t)
      /\ Forall (below 5) reads
      /\ ticks < 3 * length reads
  | _ =>
      exists earlier polled,
        reads = earlier ++ [Some polled]
        /\ Forall (below 5) earlier
        /\ 5 <= length polled
        /\ stages t = map path (firstn 5 polled)
  end.
Proof.
  intros Hnext Hread Hlt t reads. subst t reads.
  assert (Hbelow : below 5 (Some fs)) by (unfold below; cbn; lia).
  destruct (checkGitStatus_run w h) as (files & Hres & Hq & Htl).
  rewrite Hread in Hres. injection Hres as <-.
  unfold trace_of, settles, cycle in *. rewrite run_bind.
  destruct (run w h checkGitStatus) as [t0 res]. cbn in Hread, Hq, Htl.
  subst res.
  assert (Hleb : (5 <=? length fs)%nat = false) by (apply Nat.leb_gt; lia).
  rewrite Hleb. unfold waitForThreshold.
  remember (console_log (newline ++ "Only " ++ string_of_nat (length fs)
                         ++ " changed files found (Threshold: 5).")) as log.
  remember (ora_start ("Waiting for " ++ string_of_Z 5 ++ " unstaged files..."))
    as label.
  cbn. rewrite run_bind.
  pose proof (intervalLoop_in_time w 5 Hnext ticks
                (((h ++ t0) ++ [Said log]) ++ [Said label]) 0%Z)
    as [_ Hwait].
  pose proof (issues_only_run _ w _ (intervalLoop_queries ticks 5)
                (((h ++ t0) ++ [Said log]) ++ [Said label])) as Hwq.
  unfold trace_of, settles in Hwait, Hwq.
  destruct (run w _ (intervalLoop ticks 5000 (poll 5) [])) as [tw resw].
  cbn in Hwait, Hwq.
  assert (Hsw : stage_results t0 = [] /\ stage_results tw = []).
  { split; apply no_batch_calls;
      (eapply Forall_impl; [exact is_query_not_batch | assumption]). }
  destruct Hsw as [Hs0 Hsw].
  destruct resw as [[polled|]|e]; [| |contradiction].
  - destruct Hwait as (earlier & He & Hall & Hlast).
    destruct polled as [polled|]; [|exfalso; apply Hlast; unfold below; cbn; lia].
    assert (Hfive : 5 <= length polled).
    { unfold below in Hlast. cbn in Hlast. lia. }
    rewrite run_bind.
    match goal with
    | |- context [run w ?h' (commitAndPush (Some polled))] =>
        destruct (commitAndPush_run w h' polled)
          as (tb & pushed & after & Ht & H1 & _ & _ & H4 & _);
        pose proof (commitAndPush_makes_no_query w h' (Some polled)) as Hnq;
        unfold trace_of in Ht, Hnq;
        destruct (run w h' (commitAndPush (Some polled))) as [tc resc]
    end.
    cbn in Ht, Hnq.
    assert (Hreads :
      map snd (timeline 0 (t0 ++ Said log :: Said label :: tw ++ tc))
      = (Some fs :: earlier) ++ [Some polled]).
    { rewrite Htl. cbn. rewrite timeline_reads_app, He.
      rewrite (no_queries tc Hnq). now rewrite app_nil_r. }
    assert (Hstages :
      stages (t0 ++ Said log :: Said label :: tw ++ tc)
      = map path (firstn 5 polled)).
    { unfold stages in *. rewrite stage_results_app. cbn.
      rewrite stage_results_app, Hs0, Hsw. cbn. subst tc.
      rewrite stage_results_app. cbn.
      assert (Ha : stage_results after = []).
      { apply no_batch_calls. eapply Forall_impl; [|exact H4].
        exact is_push_call_not_batch. }
      rewrite Ha, app_nil_r. exact H1. }
    destruct resc as [[]|e]; cbn; rewrite ?app_nil_r;
      exists (Some fs :: earlier), polled; repeat split; auto.
  - destruct Hwait as [Hall Hlen]. cbn. rewrite app_nil_r.
    rewrite Htl. cbn. repeat split.
    + rewrite cmds_app. cbn. apply Forall_app. split; assumption.
    + constructor; assumption.
    + rewrite length_map in *. lia.
Qed.

Lemma cycle_below_five_commits_the_polled_list_witness :
  let w := status_stub [some_files 2; some_files 2; some_files 6] in
  (settles_in_time w
   /\ settles w [] checkGitStatus = Resolved (Some (some_files 2))
   /\ length (some_files 2) < 5)
  /\ settles w [] (cycle 6) = Resolved (Some tt)
  /\ stages (trace_of w [] (cycle 6)) = ["f1"; "f2"; "f3"; "f4"; "f5"].
Proof.
  cbv zeta.
  assert (Hin : settles_in_time
                  (status_stub [some_files 2; some_files 2; some_files 6]))
    by (intros h; reflexivity).
  split; [split; [exact Hin | split; [reflexivity | cbn; lia]]|].
  pose proof (cycle_below_five_commits_the_polled_list
                (status_stub [some_files 2; some_files 2; some_files 6]) [] 6
                (some_files 2) Hin eq_refl ltac:(cbn; lia)) as H.
  cbv zeta in H.
  assert (Hres : settles (status_stub [some_files 2; some_files 2; some_files 6])
                   [] (cycle 6) = Resolved (Some tt)) by reflexivity.
  rewrite Hres in H. destruct H as (earlier & polled & Hreads & _ & _ & Hst).
  split; [exact Hres|]. rewrite Hst.
  vm_compute in Hreads.
  apply (f_equal (@rev _)) in Hreads. rewrite rev_app_distr in Hreads.
  cbn in Hreads. injection Hreads as <- _. reflexivity.
Defined.
